(** * envsubst/parse: the recursive-descent parser of parse.go

    The development embeds [envsubst/parse/parse.go] (the Tree type and the
    productions parseAny, parseFunc, parseParam, parseDefaultOrSubstr,
    parseSubstrFunc, parseRemoveFunc, parseReplaceFunc, parseDefaultFunc,
    parseCasingFunc, parseLenFunc and consumeRbrack) and proves properties
    of the trees and errors that [Parse] returns.

    The parser is written against the scanner of the same package.  The
    productions are therefore stated over an interface [Scanner] that lists
    exactly the fields and methods parse.go touches; the theorems of the
    sections [ParserFacts], [Termination] and [Budget] hold for each
    implementation of that interface.  A scanner, [Scan.scanner], is given
    afterwards, and the theorems about concrete input text are about it. *)

From Stdlib Require Import String Ascii List NArith Arith Bool Lia.
Import ListNotations.

Set Warnings "-register-all".

Local Open Scope string_scope.
Local Open Scope char_scope.

(* Runes and strings *)

(** A Go string is a byte sequence that the scanner reads rune by rune.  The
    model reads one byte as one rune, which is what Go does on ASCII text. *)
Definition rune := ascii.

(** The error values of parse.go, lines 27-45. *)
Inductive error : Type :=
| ErrBadSubstitution
| ErrMissingClosingBrace
| ErrParseVariableName
| ErrParseFuncSubstitution
| ErrParseDefaultFunction.

(* Nodes *)

(** Modelled from the spec: node.go (the Node interface, TextNode, ListNode,
    FuncNode, the constructors newTextNode, newListNode, newFuncNode and the
    package variable [empty]) is not among the sources.  The spec gives the
    three variants Text(value), List(left, right) and Func(name, param, args)
    and an "empty" sentinel node of zero length that parseAny compares by
    identity ([right == empty]).  A value of the interface type is one of:
    Go's [nil], the sentinel, or one of the three variants.  parse.go fixes
    the field names Param, Name and Args. *)
Inductive Node : Type :=
| nil_node
| empty
| TextNode (Value : string)
| ListNode (Left Right : Node)
| FuncNode (Param Name : string) (Args : list Node).

(** Modelled from the spec: the constructors of node.go; a Text node holds
    the scanned text, a List node its two children. *)
Definition newTextNode (text : string) : Node := TextNode text.
Definition newListNode (left right : Node) : Node := ListNode left right.

(** Modelled from the spec: newFuncNode of node.go; parseFunc calls it for
    "a bare plain-lookup Func with no args", whose [param] is the name. *)
Definition newFuncNode (name : string) : Node := FuncNode name EmptyString [].

(** [n == empty] on interface values: identity with the sentinel. *)
Definition is_empty (n : Node) : bool :=
  match n with empty => true | _ => false end.

(* Tokens, scan modes, escape sets, acceptance predicates *)

(** Modelled from the spec: scan.go is not among the sources.  parse.go names
    the token kinds tokenIdent, tokenEOF, tokenLbrack and tokenRbrack and has
    a [default] branch for every other outcome of a scan, which the model
    calls [tokenIllegal]. *)
Inductive token : Type :=
| tokenIllegal
| tokenEOF
| tokenIdent
| tokenLbrack
| tokenRbrack.

(** Modelled from the spec: the mode is a bit mask ("which token kinds are
    legal: identifier run, open-brace, close-brace, escape sequence") that
    parse.go combines with [|]; the bit values are not in the sources. *)
Definition scanIdent : N := 1.
Definition scanLbrack : N := 2.
Definition scanRbrack : N := 4.
Definition scanEscape : N := 8.

(** Modelled from the spec: the escape-character set says "which characters
    a backslash may escape in the current context - only [$] outside
    substitutions, but all special characters inside function arguments";
    the special characters of an argument position are the opener, the
    backslash itself, and the delimiters [:], [/] and [}]. *)
Definition dollar : list rune := ["$"].
Definition escapeAll : list rune := ["$"; "\"; ":"; "/"; "}"].

(** Modelled from the spec: the type acceptFunc of scan.go is "an acceptance
    predicate (which characters belong to the current identifier/token)";
    parse.go hands the scanner the following ones, by name.  What each of
    them accepts is part of the scanner, [Scan.accepts]. *)
Inductive acceptFunc : Type :=
| acceptRune
| acceptIdent
| acceptColon
| acceptOneColon
| rejectColonClose
| acceptNotClosing
| acceptHashFunc
| acceptPercentFunc
| acceptReplaceFunc
| acceptNotSlash
| acceptSlash
| acceptDefaultFunc
| acceptOneEqual
| acceptCasingFunc
| acceptOneHash.

(* The scanner as parse.go uses it *)

(** The scanner type of scan.go, which is not among the sources, as an
    interface.  Fields written by the parser: accept, mode, escapeChars.
    Methods called by the parser: init, scan, peek, read, unread, string.
    [zero] is the value of [new(scanner)]. *)
Class Scanner (S : Type) : Type := {
  zero : S;
  init : string -> S -> S;
  set_accept : acceptFunc -> S -> S;
  set_mode : N -> S -> S;
  set_escapeChars : list rune -> S -> S;
  scan : S -> token * S;
  peek : S -> rune;
  read : S -> rune * S;
  unread : S -> S;
  string_ : S -> string
}.

Definition rune_eqb (a b : rune) : bool := Ascii.eqb a b.

(* The parser (parse.go) *)

Section Parser.

Context {S : Type} `{Scanner S}.

(** type Tree struct { Root Node; scanner *scanner } *)
Record Tree : Type := mkTree { Root : Node; scanner : S }.

(** What a production returns: Go's pair (Node, error) together with the
    scanner it leaves behind.  [None] as an error is Go's nil error. *)
Definition result : Type := (Node * option error * S)%type.

(** The productions are mutually recursive through parseFunc.  A production
    that calls [t.parseFunc()] takes it as the argument [pf]; parseFunc
    below ties the knot on a step budget.  [None] means that the budget was
    used up, it is not a value the Go code returns. *)
Definition production : Type := S -> option result.

(** consumeRbrack, lines 405-411. *)
Definition consumeRbrack (s : S) : option error * S :=
  let s := set_mode scanRbrack s in
  let '(tok, s) := scan s in
  match tok with
  | tokenRbrack => (None, s)
  | _ => (Some ErrBadSubstitution, s)
  end.

(** [return node, t.consumeRbrack()] *)
Definition closing (node : Node) (s : S) : option result :=
  let '(err, s) := consumeRbrack s in Some (node, err, s).

(** parseParam, lines 154-171. *)
Definition parseParam (pf : production) (accept : acceptFunc) (mode : N)
    (s : S) : option result :=
  let s := set_accept accept s in
  let s := set_mode (N.lor mode scanLbrack) s in
  let '(tok, s) := scan s in
  match tok with
  | tokenLbrack => pf s
  | tokenIdent => Some (newTextNode (string_ s), None, s)
  | tokenRbrack => Some (newTextNode (string_ s), None, s)
  | _ => Some (nil_node, Some ErrParseFuncSubstitution, s)
  end.

(** parseSubstrFunc, lines 188-234. *)
Definition parseSubstrFunc (pf : production) (name : string) (s : S)
    : option result :=
  let s := set_accept acceptOneColon s in
  let s := set_mode scanIdent s in
  let '(tok, s) := scan s in
  match tok with
  | tokenIdent =>
    let opname := string_ s in
    match parseParam pf rejectColonClose scanIdent s with
    | None => None
    | Some (_, Some err, s) => Some (nil_node, Some err, s)
    | Some (param, None, s) =>
      let args := ([] ++ [param])%list in
      let s := set_accept acceptColon s in
      let s := set_mode (N.lor scanIdent scanRbrack) s in
      let '(tok, s) := scan s in
      match tok with
      | tokenRbrack => Some (FuncNode name opname args, None, s)
      | tokenIdent =>
        match parseParam pf acceptNotClosing scanIdent s with
        | None => None
        | Some (_, Some err, s) => Some (nil_node, Some err, s)
        | Some (param, None, s) =>
          closing (FuncNode name opname (args ++ [param])%list) s
        end
      | _ => Some (nil_node, Some ErrBadSubstitution, s)
      end
    end
  | _ => Some (nil_node, Some ErrBadSubstitution, s)
  end.

(** parseRemoveFunc, lines 240-265. *)
Definition parseRemoveFunc (pf : production) (name : string)
    (accept : acceptFunc) (s : S) : option result :=
  let s := set_accept accept s in
  let s := set_mode scanIdent s in
  let '(tok, s) := scan s in
  match tok with
  | tokenIdent =>
    let opname := string_ s in
    match parseParam pf acceptNotClosing scanIdent s with
    | None => None
    | Some (_, Some err, s) => Some (nil_node, Some err, s)
    | Some (param, None, s) =>
      closing (FuncNode name opname ([] ++ [param])%list) s
    end
  | _ => Some (nil_node, Some ErrBadSubstitution, s)
  end.

(** parseReplaceFunc, lines 271-319. *)
Definition parseReplaceFunc (pf : production) (name : string) (s : S)
    : option result :=
  let s := set_accept acceptReplaceFunc s in
  let s := set_mode scanIdent s in
  let '(tok, s) := scan s in
  match tok with
  | tokenIdent =>
    let opname := string_ s in
    match parseParam pf acceptNotSlash (N.lor scanIdent scanEscape) s with
    | None => None
    | Some (_, Some err, s) => Some (nil_node, Some err, s)
    | Some (param, None, s) =>
      let args := ([] ++ [param])%list in
      let s := set_accept acceptSlash s in
      let s := set_mode scanIdent s in
      let '(tok, s) := scan s in
      match tok with
      | tokenIdent =>
        if rune_eqb (peek s) "}" then
          closing (FuncNode name opname args) s
        else
          match parseParam pf acceptNotClosing (N.lor scanIdent scanEscape) s with
          | None => None
          | Some (_, Some err, s) => Some (nil_node, Some err, s)
          | Some (param, None, s) =>
            closing (FuncNode name opname (args ++ [param])%list) s
          end
      | _ => Some (nil_node, Some ErrBadSubstitution, s)
      end
    end
  | _ => Some (nil_node, Some ErrBadSubstitution, s)
  end.

(** The [for] loop of parseDefaultFunc, lines 343-355; [args] is node.Args.
    Each turn of the loop takes one unit of the budget. *)
Fixpoint defaultLoop (pf : production) (fuel : nat) (name opname : string)
    (args : list Node) (s : S) : option result :=
  match fuel with
  | O => None
  | Datatypes.S fuel =>
    if rune_eqb (peek s) "}" then
      closing (FuncNode name opname args) s
    else
      match parseParam pf acceptNotClosing scanIdent s with
      | None => None
      | Some (_, Some err, s) => Some (nil_node, Some err, s)
      | Some (param, None, s) =>
        defaultLoop pf fuel name opname (args ++ [param])%list s
      end
  end.

(** parseDefaultFunc, lines 326-356. *)
Definition parseDefaultFunc (pf : production) (fuel : nat) (name : string)
    (s : S) : option result :=
  let s := set_accept acceptDefaultFunc s in
  let s := if rune_eqb (peek s) "=" then set_accept acceptOneEqual s else s in
  let s := set_mode scanIdent s in
  let '(tok, s) := scan s in
  match tok with
  | tokenIdent => defaultLoop pf fuel name (string_ s) [] s
  | _ => Some (nil_node, Some ErrParseDefaultFunction, s)
  end.

(** The runes on which parseDefaultOrSubstr chooses the default family. *)
Definition isDefaultOp (r : rune) : bool :=
  rune_eqb r "=" || rune_eqb r "-" || rune_eqb r "?" || rune_eqb r "+".

(** parseDefaultOrSubstr, lines 174-184. *)
Definition parseDefaultOrSubstr (pf : production) (fuel : nat)
    (name : string) (s : S) : option result :=
  let '(_, s) := read s in
  let r := peek s in
  let s := unread s in
  if isDefaultOp r then parseDefaultFunc pf fuel name s
  else parseSubstrFunc pf name s.

(** parseCasingFunc, lines 362-376. *)
Definition parseCasingFunc (name : string) (s : S) : option result :=
  let s := set_accept acceptCasingFunc s in
  let s := set_mode scanIdent s in
  let '(tok, s) := scan s in
  match tok with
  | tokenIdent => closing (FuncNode name (string_ s) []) s
  | _ => Some (nil_node, Some ErrBadSubstitution, s)
  end.

(** parseLenFunc, lines 379-401. *)
Definition parseLenFunc (s : S) : option result :=
  let s := set_accept acceptOneHash s in
  let s := set_mode scanIdent s in
  let '(tok, s) := scan s in
  match tok with
  | tokenIdent =>
    let opname := string_ s in
    let s := set_accept acceptIdent s in
    let s := set_mode scanIdent s in
    let '(tok, s) := scan s in
    match tok with
    | tokenIdent => closing (FuncNode (string_ s) opname []) s
    | _ => Some (nil_node, Some ErrBadSubstitution, s)
    end
  | _ => Some (nil_node, Some ErrBadSubstitution, s)
  end.

(** The body of parseFunc, lines 109-151, with its recursive calls [pf]. *)
Definition parseFuncBody (pf : production) (fuel : nat) (s : S)
    : option result :=
  let s := set_escapeChars escapeAll s in
  if rune_eqb (peek s) "#" then parseLenFunc s
  else
    let s := set_accept acceptIdent s in
    let s := set_mode scanIdent s in
    let '(tok, s) := scan s in
    match tok with
    | tokenIdent =>
      let name := string_ s in
      let r := peek s in
      if rune_eqb r ":" then parseDefaultOrSubstr pf fuel name s
      else if rune_eqb r "=" then parseDefaultFunc pf fuel name s
      else if rune_eqb r "," || rune_eqb r "^" then parseCasingFunc name s
      else if rune_eqb r "/" then parseReplaceFunc pf name s
      else if rune_eqb r "#" then parseRemoveFunc pf name acceptHashFunc s
      else if rune_eqb r "%" then parseRemoveFunc pf name acceptPercentFunc s
      else
        let s := set_accept acceptIdent s in
        let s := set_mode scanRbrack s in
        let '(tok, s) := scan s in
        match tok with
        | tokenRbrack => Some (newFuncNode name, None, s)
        | _ => Some (nil_node, Some ErrMissingClosingBrace, s)
        end
    | _ => Some (nil_node, Some ErrParseVariableName, s)
    end.

(** parseFunc, lines 109-151. *)
Fixpoint parseFunc (fuel : nat) (s : S) : option result :=
  match fuel with
  | O => None
  | Datatypes.S fuel => parseFuncBody (parseFunc fuel) fuel s
  end.

(** The tail shared by the two recursive branches of parseAny:
    [switch { case err != nil: ...; case right == empty: ... }]. *)
Definition joinRight (left_ : Node) (r : option result) : option result :=
  match r with
  | None => None
  | Some (_, Some err, s) => Some (nil_node, Some err, s)
  | Some (right_, None, s) =>
    if is_empty right_ then Some (left_, None, s)
    else Some (newListNode left_ right_, None, s)
  end.

(** parseAny, lines 70-107. *)
Fixpoint parseAny (fuel : nat) (s : S) : option result :=
  match fuel with
  | O => None
  | Datatypes.S fuel =>
    let s := set_accept acceptRune s in
    let s := set_mode (N.lor (N.lor scanIdent scanLbrack) scanEscape) s in
    let s := set_escapeChars dollar s in
    let '(tok, s) := scan s in
    match tok with
    | tokenIdent =>
      let left_ := newTextNode (string_ s) in
      joinRight left_ (parseAny fuel s)
    | tokenEOF => Some (empty, None, s)
    | tokenLbrack =>
      match parseFunc fuel s with
      | None => None
      | Some (_, Some err, s) => Some (nil_node, Some err, s)
      | Some (left_, None, s) => joinRight left_ (parseAny fuel s)
      end
    | _ => Some (nil_node, Some ErrBadSubstitution, s)
    end
  end.

(** Tree.Parse and Parse, lines 56-68: the tree is returned together with
    the error, its Root being whatever parseAny returned. *)
Definition Parse (fuel : nat) (buf : string) : option (Tree * option error) :=
  let sc := init buf zero in
  match parseAny fuel sc with
  | None => None
  | Some (root, err, sc) => Some (mkTree root sc, err)
  end.

End Parser.

(* A scanner *)

(** Modelled from the spec: scan.go (the scanner type, its methods init,
    scan, peek, read, unread and string, and the acceptance predicates) is
    not among the sources.  The spec describes "a lexical cursor over the
    input text with a configurable acceptance predicate and a mode flag set
    that together determine what the next token may be and which characters
    are escapable"; [scan] "consumes input and returns a token kind plus the
    covered text, retrievable via a string accessor"; peek, read and unread
    "provide one-rune lookahead without committing", and the "cursor
    advances only on scan/read, never on peek".  Every definition of the
    module [Scan] is part of that model. *)
Module Scan.

(** Modelled from the spec: read and peek return a rune also at the end of
    the input; it is the zero rune, and scan, which reads its first rune
    with read, takes that rune for the end of the input. *)
Definition eof : rune := "000".

(** Modelled from the spec: the cursor, with the three fields that parse.go
    writes. *)
Record scanner : Type := mkScanner {
  input : list rune;          (* the text to the right of the cursor *)
  text : list rune;           (* the text covered by the latest scan *)
  last : option rune;         (* the rune the latest read stepped over *)
  mode : N;
  escapeChars : list rune;
  accept : option acceptFunc  (* None is the nil func of new(scanner) *)
}.

(** Modelled from the spec: assignments to one field of the scanner. *)
Definition with_input (i : list rune) (s : scanner) : scanner :=
  mkScanner i (text s) (last s) (mode s) (escapeChars s) (accept s).
Definition with_text (t : list rune) (s : scanner) : scanner :=
  mkScanner (input s) t (last s) (mode s) (escapeChars s) (accept s).
Definition with_last (l : option rune) (s : scanner) : scanner :=
  mkScanner (input s) (text s) l (mode s) (escapeChars s) (accept s).
Definition with_mode (m : N) (s : scanner) : scanner :=
  mkScanner (input s) (text s) (last s) m (escapeChars s) (accept s).
Definition with_escapeChars (e : list rune) (s : scanner) : scanner :=
  mkScanner (input s) (text s) (last s) (mode s) e (accept s).
Definition with_accept (a : acceptFunc) (s : scanner) : scanner :=
  mkScanner (input s) (text s) (last s) (mode s) (escapeChars s) (Some a).

(** Modelled from the spec: the test [mode & bit != 0] of a mode bit. *)
Definition has (md bit : N) : bool := negb (N.eqb (N.land md bit) 0).

(** Modelled from the spec: the runes of a variable name are letters,
    digits and the underscore. *)
Definition between (lo hi c : rune) : bool :=
  (N.leb (N_of_ascii lo) (N_of_ascii c)) && (N.leb (N_of_ascii c) (N_of_ascii hi)).

Definition isLetter (c : rune) : bool := between "a" "z" c || between "A" "Z" c.
Definition isDigit (c : rune) : bool := between "0" "9" c.

(** Modelled from the spec: the acceptance predicates, from their names in
    parse.go and from the operator forms the spec lists for each production
    (one or two runes, as in [#] and [##], [/] [//] [/#] [/%], [:-] [:=]
    [:?] [:+]); [i] is the place of the rune in the token, counted from 1. *)
Definition accepts (f : acceptFunc) (r : rune) (i : nat) : bool :=
  match f with
  | acceptRune => true
  | acceptIdent => isLetter r || isDigit r || rune_eqb r "_"
  | acceptColon => rune_eqb r ":"
  | acceptOneColon => rune_eqb r ":" && Nat.eqb i 1
  | rejectColonClose => negb (rune_eqb r ":") && negb (rune_eqb r "}")
  | acceptNotClosing => negb (rune_eqb r "}")
  | acceptHashFunc => rune_eqb r "#" && Nat.leb i 2
  | acceptPercentFunc => rune_eqb r "%" && Nat.leb i 2
  | acceptReplaceFunc =>
      (Nat.eqb i 1 && rune_eqb r "/")
      || (Nat.eqb i 2 && (rune_eqb r "/" || rune_eqb r "#" || rune_eqb r "%"))
  | acceptNotSlash => negb (rune_eqb r "/")
  | acceptSlash => rune_eqb r "/"
  | acceptDefaultFunc =>
      (Nat.eqb i 1 && rune_eqb r ":") || (Nat.eqb i 2 && isDefaultOp r)
  | acceptOneEqual => Nat.eqb i 1 && rune_eqb r "="
  | acceptCasingFunc => (rune_eqb r "," || rune_eqb r "^") && Nat.leb i 2
  | acceptOneHash => rune_eqb r "#" && Nat.eqb i 1
  end.

(** Modelled from the spec: the predicate in force; the nil func of a fresh
    scanner accepts nothing (parse.go sets [accept] before every scan that
    consults it). *)
Definition accepted (a : option acceptFunc) (r : rune) (i : nat) : bool :=
  match a with
  | Some f => accepts f r i
  | None => false
  end.

(** Modelled from the spec: the two runes [$] [{] are ahead and the mode
    lets them open a substitution. *)
Definition opensSubst (md : N) (r : rune) (rest : list rune) : bool :=
  has md scanLbrack && rune_eqb r "$"
  && match rest with c :: _ => rune_eqb c "{" | [] => false end.

(** Modelled from the spec: "backslash escapes" the runes of the escape
    set, in a mode that scans escapes. *)
Definition escaped (md : N) (esc : list rune) (r c : rune) : bool :=
  has md scanEscape && rune_eqb r "\" && existsb (rune_eqb c) esc.

(** Modelled from the spec: the identifier run.  Runes are added to the
    token while they are accepted; an escape adds the escaped rune and drops
    the backslash; the run stops in front of an opening [${], of a rejected
    rune, or at the end of the input, which is also where read reports
    [eof].  Returns the token text and the input left. *)
Fixpoint scanRun (md : N) (esc : list rune) (acc : option acceptFunc)
    (tx : list rune) (inp : list rune) : list rune * list rune :=
  match inp with
  | [] => (tx, [])
  | r :: rest =>
    if rune_eqb r eof || opensSubst md r rest then (tx, inp)
    else
      match rest with
      | c :: rest' =>
        if escaped md esc r c then scanRun md esc acc (tx ++ [c]) rest'
        else if accepted acc r (Datatypes.S (length tx))
             then scanRun md esc acc (tx ++ [r]) rest
             else (tx, inp)
      | [] =>
        if accepted acc r (Datatypes.S (length tx))
        then scanRun md esc acc (tx ++ [r]) rest
        else (tx, inp)
      end
  end.

(** Modelled from the spec: scan "consumes input and returns a token kind
    (Ident, Lbrack, Rbrack, EOF) plus the covered text"; a token kind that
    the mode does not allow is not looked for, and tokenIllegal is returned
    when none fits. *)
Definition scan (s : scanner) : token * scanner :=
  match input s with
  | [] => (tokenEOF, with_text [] s)
  | r :: rest =>
    if rune_eqb r eof then (tokenEOF, with_input rest (with_text [] s))
    else if opensSubst (mode s) r rest then
      (tokenLbrack, with_input (tl rest) (with_text ["$"; "{"] s))
    else if has (mode s) scanRbrack && rune_eqb r "}" then
      (tokenRbrack, with_input rest (with_text ["}"] s))
    else if has (mode s) scanIdent then
      match scanRun (mode s) (escapeChars s) (accept s) [] (input s) with
      | ([], _) => (tokenIllegal, with_text [] s)
      | (tx, rest) => (tokenIdent, with_input rest (with_text tx s))
      end
    else (tokenIllegal, with_text [] s)
  end.

(** Modelled from the spec: peek, read and unread "provide one-rune
    lookahead without committing"; the cursor moves on read and moves back
    on unread, never on peek. *)
Definition peek (s : scanner) : rune := hd eof (input s).

Definition read (s : scanner) : rune * scanner :=
  match input s with
  | [] => (eof, with_last None s)
  | r :: rest => (r, with_input rest (with_last (Some r) s))
  end.

Definition unread (s : scanner) : scanner :=
  match last s with
  | Some r => with_input (r :: input s) (with_last None s)
  | None => s
  end.

(** Modelled from the spec: the "string accessor" for the covered text. *)
Definition string_ (s : scanner) : string := string_of_list_ascii (text s).

(** Modelled from the spec: [new(scanner)] and [init], which binds the
    scanner to the text. *)
Definition zero : scanner := mkScanner [] [] None 0 [] None.

Definition init (buf : string) (s : scanner) : scanner :=
  mkScanner (list_ascii_of_string buf) [] None (mode s) (escapeChars s) None.

#[global] Instance ops : Scanner scanner :=
  Build_Scanner scanner zero init with_accept with_mode with_escapeChars
    scan peek read unread string_.

(** What is left to scan; the measure of the termination argument. *)
Definition remaining (s : scanner) : nat := length (input s).

End Scan.

(* Expansion *)

(** Modelled from the spec: the expansion engine is not among the sources.
    The spec gives its walk: "Text(v) emits v verbatim", "List(l, r) emits
    Execute(l) then Execute(r)", and a Func node "resolves param via resolve"
    and "computes the operator's result from the resolved value (or its
    absence) and the evaluated args".  The operator table is the parameter
    [operator]; [None] is an expansion error.  The sentinel [empty] is a node
    of zero length. *)
Section Expansion.

Variable resolve : string -> option string.
Variable operator : string -> option string -> list string -> option string.

Fixpoint Execute (n : Node) : option string :=
  match n with
  | nil_node => None
  | empty => Some EmptyString
  | TextNode v => Some v
  | ListNode l r =>
    match Execute l, Execute r with
    | Some a, Some b => Some (a ++ b)%string
    | _, _ => None
    end
  | FuncNode param name args =>
    let fix all (ns : list Node) : option (list string) :=
      match ns with
      | [] => Some []
      | n :: ns =>
        match Execute n, all ns with
        | Some v, Some vs => Some (v :: vs)
        | _, _ => None
        end
      end in
    match all args with
    | Some vs => operator name (resolve param) vs
    | None => None
    end
  end.

End Expansion.

(** [Parse] with the scanner above. *)
Definition ParseString (fuel : nat) (buf : string)
    : option (Tree (S := Scan.scanner) * option error) :=
  Parse fuel buf.

(** What a caller sees of [Parse]: the root and the error. *)
Definition outcome (fuel : nat) (buf : string) : option (Node * option error) :=
  match ParseString fuel buf with
  | Some (t, err) => Some (Root t, err)
  | None => None
  end.

(* Shapes of input text *)

(** A rune of a variable name. *)
Definition identRune (c : rune) : bool := Scan.accepts acceptIdent c 1.

(** A non-empty run of name runes. *)
Definition identifier (name : string) : bool :=
  negb (Nat.eqb (String.length name) 0)
  && forallb identRune (list_ascii_of_string name).

(** The two runes [${] occur somewhere in the text. *)
Fixpoint opensSomewhere (t : list rune) : bool :=
  match t with
  | c :: rest =>
    (rune_eqb c "$" && match rest with d :: _ => rune_eqb d "{" | [] => false end)
    || opensSomewhere rest
  | [] => false
  end.

Definition hasSubstitution (t : string) : bool :=
  opensSomewhere (list_ascii_of_string t).

(** Text without the runes the scanner treats specially outside of a
    substitution: the dollar sign, the backslash and the zero rune. *)
Definition literalRune (c : rune) : bool :=
  negb (rune_eqb c "$") && negb (rune_eqb c "\")
  && negb (rune_eqb c Scan.eof).

Definition literal (t : string) : bool :=
  forallb literalRune (list_ascii_of_string t).

(** Text that parseAny scans as it stands: it holds no zero rune, no [$]
    directly followed by [{] and no backslash directly followed by [$]. *)
Fixpoint verbatimRunes (t : list rune) : bool :=
  match t with
  | [] => true
  | r :: rest =>
    negb (rune_eqb r Scan.eof)
    && negb (rune_eqb r "$"
             && match rest with c :: _ => rune_eqb c "{" | [] => false end)
    && negb (rune_eqb r "\"
             && match rest with c :: _ => rune_eqb c "$" | [] => false end)
    && verbatimRunes rest
  end.

Definition verbatim (t : string) : bool :=
  verbatimRunes (list_ascii_of_string t).



(** The text holds no closing brace. *)
Definition neverCloses (t : string) : bool :=
  forallb (fun c => negb (rune_eqb c "}")) (list_ascii_of_string t).

(** A substitution is opened at the start of the text and a closing brace
    never follows. *)
Definition unclosed (t : string) : bool :=
  String.prefix "${" t && neverCloses t.

(** The input after a name: its end, or a rune that is no name rune. *)
Definition identStop (rest : list rune) : bool :=
  match rest with
  | [] => true
  | r :: _ => negb (identRune r)
  end.

(** The part of parseFunc that follows the scan of the name, lines 128-150;
    [parseFuncBody_split] below shows that parseFuncBody is made of the scan
    of the name and of this. *)
Definition afterName {S : Type} `{Scanner S} (pf : production (S := S))
    (fuel : nat) (name : string) (s : S) : option result :=
  let r := peek s in
  if rune_eqb r ":" then parseDefaultOrSubstr pf fuel name s
  else if rune_eqb r "=" then parseDefaultFunc pf fuel name s
  else if rune_eqb r "," || rune_eqb r "^" then parseCasingFunc name s
  else if rune_eqb r "/" then parseReplaceFunc pf name s
  else if rune_eqb r "#" then parseRemoveFunc pf name acceptHashFunc s
  else if rune_eqb r "%" then parseRemoveFunc pf name acceptPercentFunc s
  else
    let s := set_accept acceptIdent s in
    let s := set_mode scanRbrack s in
    let '(tok, s) := scan s in
    match tok with
    | tokenRbrack => Some (newFuncNode name, None, s)
    | _ => Some (nil_node, Some ErrMissingClosingBrace, s)
    end.

(** The scanner of parseFunc once it has scanned the name VAR, with [rest]
    still to read. *)
Definition afterVar (rest : string) : Scan.scanner :=
  Scan.mkScanner (list_ascii_of_string rest) (list_ascii_of_string "VAR")
    None scanIdent escapeAll (Some acceptIdent).

(** The scanner inside the loop of parseDefaultFunc once the operator [:-]
    has been scanned, with [rest] still to read. *)
Definition inDefaultWord (rest : string) : Scan.scanner :=
  Scan.mkScanner (list_ascii_of_string rest) (list_ascii_of_string ":-")
    None scanIdent escapeAll (Some acceptDefaultFunc).

(** The scanner after the closing brace, at the end of the input, as the
    productions leave it. *)
Definition atEnd (m : N) (a : acceptFunc) : Scan.scanner :=
  Scan.mkScanner [] (list_ascii_of_string "}") None m escapeAll (Some a).

(** The tree invariant of the node model: no List node, at any depth and
    also inside the arguments of a Func node, has the sentinel [empty] as
    its left or as its right child. *)
Fixpoint no_empty_child (n : Node) : bool :=
  match n with
  | ListNode l r =>
    negb (is_empty l) && negb (is_empty r)
    && no_empty_child l && no_empty_child r
  | FuncNode _ _ args => forallb no_empty_child args
  | _ => true
  end.

(** The mode parseAny sets before its scan (line 72). *)
Definition anyMode : N := N.lor (N.lor scanIdent scanLbrack) scanEscape.

(** The scanner as parseAny sets it up before its scan (lines 71-73). *)
Definition anyScanner {S : Type} `{Scanner S} (s : S) : S :=
  set_escapeChars dollar (set_mode anyMode (set_accept acceptRune s)).

(** A production whose successful results are nodes other than the sentinel
    and free of List nodes with the sentinel as a child. *)
Definition sound_production {S : Type} `{Scanner S}
    (pf : production (S := S)) : Prop :=
  forall s n s', pf s = Some (n, None, s') ->
    is_empty n = false /\ no_empty_child n = true.

(** The production returned, and left a scanner of size at most [bound]. *)
Definition returns {S : Type} (size : S -> nat)
    (p : option (result (S := S))) (bound : nat) : Prop :=
  exists n e s', p = Some (n, e, s') /\ size s' <= bound.

(** As [returns], and a success has consumed input. *)
Definition advances {S : Type} (size : S -> nat)
    (p : option (result (S := S))) (bound : nat) : Prop :=
  exists n e s', p = Some (n, e, s') /\ size s' <= bound
                 /\ (e = None -> size s' < bound).

(** [pf] returns on every scanner smaller than [k]. *)
Definition total_below {S : Type} (size : S -> nat)
    (pf : production (S := S)) (k : nat) : Prop :=
  forall s, size s < k -> returns size (pf s) (size s).

(** Every result of [p] is a result of [q]: [q] is [p] on a larger budget. *)
Definition extends {S : Type} (p q : production (S := S)) : Prop :=
  forall s r, p s = Some r -> q s = Some r.

(** A node that can stand as an argument of a Func node or as the left child
    of a List node: a Text node, or a Func node whose Param satisfies [P]
    and whose arguments are such nodes again. *)
Fixpoint argNode (P : string -> bool) (n : Node) : bool :=
  match n with
  | TextNode _ => true
  | FuncNode p _ args => P p && forallb (argNode P) args
  | _ => false
  end.

(** One such node, or a chain of List nodes that leans to the right: each
    left child is an argument node and the chain goes on in the right
    child. *)
Fixpoint chainNode (P : string -> bool) (n : Node) : bool :=
  match n with
  | ListNode l r => argNode P l && chainNode P r
  | _ => argNode P n
  end.

(** The root of a tree: the sentinel, for an input without tokens, or a
    chain. *)
Definition treeShape (P : string -> bool) (n : Node) : bool :=
  is_empty n || chainNode P n.

(** A production whose successful results are argument nodes. *)
Definition shaped_production {S : Type} `{Scanner S} (P : string -> bool)
    (pf : production (S := S)) : Prop :=
  forall s n s', pf s = Some (n, None, s') -> argNode P n = true.

(** The scanner as parseDefaultFunc sets it up before it scans the operator
    (lines 330-334). *)
Definition defaultScanner {S : Type} `{Scanner S} (s : S) : S :=
  set_mode scanIdent
    (if rune_eqb (peek (set_accept acceptDefaultFunc s)) "="
     then set_accept acceptOneEqual (set_accept acceptDefaultFunc s)
     else set_accept acceptDefaultFunc s).

(** A string that is not empty. *)
Definition nonEmpty (t : string) : bool :=
  negb (Nat.eqb (String.length t) 0).

(** The production never fails with the error [e]. *)
Definition neverFails {S : Type} (e : error) (pf : production (S := S))
    : Prop :=
  forall s n s', pf s <> Some (n, Some e, s').

(** The runes on which parseFunc leaves the plain form for an operator
    production (lines 128-141). *)
Definition isOperatorRune (r : rune) : bool :=
  rune_eqb r ":" || rune_eqb r "=" || rune_eqb r "," || rune_eqb r "^"
  || rune_eqb r "/" || rune_eqb r "#" || rune_eqb r "%".

(** What follows the name of an unclosed plain form: the end of the input,
    or a rune that is no name rune, no operator rune and no closing brace. *)
Definition plainStop (rest : list rune) : bool :=
  match rest with
  | [] => true
  | r :: _ =>
    negb (identRune r) && negb (isOperatorRune r) && negb (rune_eqb r "}")
  end.

(** Text in front of a substitution: closed plain substitutions, each after
    literal text [a] that may be empty. *)
Fixpoint render (items : list (string * string)) : string :=
  match items with
  | [] => EmptyString
  | (a, name) :: items => a ++ "${" ++ name ++ "}" ++ render items
  end.

Definition itemOK (it : string * string) : bool :=
  literal (fst it) && identifier (snd it).

(** Parse fails on [buf] with the error [e], on some budget. *)
Definition fails (buf : string) (e : error) : Prop :=
  exists fuel s',
    parseAny fuel (Scan.init buf Scan.zero) = Some (nil_node, Some e, s').

(** The text holds no zero rune. *)
Definition zeroFree (t : string) : bool :=
  forallb (fun c => negb (rune_eqb c Scan.eof)) (list_ascii_of_string t).

(** [rest_of] gives the runes a scanner has still to read.  A production
    closes when its successes read no rune that was not there and had a
    closing brace among the runes to read. *)
Definition closes {S : Type} `{Scanner S} (rest_of : S -> list rune)
    (pf : production (S := S)) : Prop :=
  forall s n s', pf s = Some (n, None, s') ->
    In "}" (rest_of s) /\ incl (rest_of s') (rest_of s).

(** The closing scan of the plain form (lines 143-150) failed and left the
    scanner [s']: a name had been scanned, no operator rune followed it,
    and the scan in mode scanRbrack returned another token than the
    closing brace. *)
Definition plainUnclosed {S : Type} `{Scanner S} (s' : S) : Prop :=
  exists s0 s1 tok,
    rune_eqb (peek (set_escapeChars escapeAll s0)) "#" = false
    /\ scan (set_mode scanIdent
               (set_accept acceptIdent (set_escapeChars escapeAll s0)))
       = (tokenIdent, s1)
    /\ isOperatorRune (peek s1) = false
    /\ scan (set_mode scanRbrack (set_accept acceptIdent s1)) = (tok, s')
    /\ tok <> tokenRbrack.

(** A production that fails with ErrMissingClosingBrace only where the
    closing scan of a plain form failed. *)
Definition missingFromPlain {S : Type} `{Scanner S}
    (pf : production (S := S)) : Prop :=
  forall s n s', pf s = Some (n, Some ErrMissingClosingBrace, s') ->
    plainUnclosed s'.

(** The run of the loop of parseDefaultFunc (lines 343-355) from the scanner
    [s]: the results of its parseParam calls, in the order of the calls,
    and the scanner in front of the closing brace where it ends. *)
Inductive loopArgs {S : Type} `{Scanner S} (pf : production (S := S))
    : S -> list Node -> S -> Prop :=
| loop_done (s : S) :
    rune_eqb (peek s) "}" = true -> loopArgs pf s [] s
| loop_more (s s1 s2 : S) (p : Node) (args : list Node) :
    rune_eqb (peek s) "}" = false ->
    parseParam pf acceptNotClosing scanIdent s = Some (p, None, s1) ->
    loopArgs pf s1 args s2 ->
    loopArgs pf s (p :: args) s2.

(** * Facts that hold for every scanner *)

Section ParserFacts.

Context {S : Type} `{Scanner S}.

Lemma consumeRbrack_error (s s' : S) (e : error) :
  consumeRbrack s = (Some e, s') -> e = ErrBadSubstitution.
Proof.
  unfold consumeRbrack. destruct (scan _) as [tok s1].
  destruct tok; intros E; inversion E; reflexivity.
Qed.

Lemma closing_inv (node n : Node) (e : option error) (s s' : S) :
  closing node s = Some (n, e, s') -> n = node /\ consumeRbrack s = (e, s').
Proof.
  unfold closing. destruct (consumeRbrack s) as [e0 s0].
  intros E; inversion E; auto.
Qed.

Lemma joinRight_error (l n : Node) (r : option result) (e : error) (s' : S) :
  joinRight l r = Some (n, Some e, s') -> n = nil_node.
Proof.
  unfold joinRight. destruct r as [[[rn [re|]] rs]|]; intros E.
  - inversion E; reflexivity.
  - destruct (is_empty rn); discriminate E.
  - discriminate E.
Qed.

Lemma parseAny_error_nil (fuel : nat) (s s' : S) (n : Node) (e : error) :
  parseAny fuel s = Some (n, Some e, s') -> n = nil_node.
Proof.
  destruct fuel as [|fuel]; simpl; [discriminate|].
  destruct (scan _) as [tok s1]. destruct tok; intros E.
  - inversion E; reflexivity.
  - discriminate E.
  - eapply joinRight_error; eassumption.
  - destruct (parseFunc fuel s1) as [[[ln [le|]] ls]|].
    + inversion E; reflexivity.
    + eapply joinRight_error; eassumption.
    + discriminate E.
  - inversion E; reflexivity.
Qed.

(** parseParam, read off its four branches. *)
Lemma parseParam_cases (pf : production) (a : acceptFunc) (m : N) (s : S) :
  let '(tok, s1) := scan (set_mode (N.lor m scanLbrack) (set_accept a s)) in
  parseParam pf a m s =
  match tok with
  | tokenLbrack => pf s1
  | tokenIdent | tokenRbrack => Some (TextNode (string_ s1), None, s1)
  | _ => Some (nil_node, Some ErrParseFuncSubstitution, s1)
  end.
Proof.
  unfold parseParam. destruct (scan _) as [tok s1].
  destruct tok; reflexivity.
Qed.

(** An argument is a Text node or whatever the nested parseFunc returned. *)
Lemma parseParam_success (pf : production) (a : acceptFunc) (m : N)
    (s s' : S) (n : Node) :
  parseParam pf a m s = Some (n, None, s') ->
  (exists v, n = TextNode v) \/ (exists s1, pf s1 = Some (n, None, s')).
Proof.
  unfold parseParam. destruct (scan _) as [tok s1].
  destruct tok; intros E; try discriminate E.
  - left. inversion E. eexists; reflexivity.
  - right. exists s1; exact E.
  - left. inversion E. eexists; reflexivity.
Qed.

(** C1.  When Parse fails, the Tree it returns carries no node: its Root is
    nil, also where a production returned its half-built node next to the
    error ([return node, t.consumeRbrack()]). *)
Theorem Parse_error_no_tree (fuel : nat) (buf : string) (t : Tree)
    (e : error) :
  Parse fuel buf = Some (t, Some e) -> Root t = nil_node.
Proof.
  unfold Parse.
  destruct (parseAny fuel (init buf zero)) as [[[n err] s1]|] eqn:E;
    [|discriminate].
  intros P. inversion P; subst. simpl.
  eapply parseAny_error_nil; eassumption.
Qed.

(** C5.  A substring substitution that parses has one argument, the offset,
    when the scan after the offset returns the closing brace, and two
    arguments, offset then length, when that scan returns the [:] delimiter
    token; the length is then followed by the closing brace. *)
Theorem parseSubstrFunc_arguments (pf : production) (name : string)
    (s s' : S) (node : Node) :
  parseSubstrFunc pf name s = Some (node, None, s') ->
  exists s1 off s2 tok s3,
    scan (set_mode scanIdent (set_accept acceptOneColon s)) = (tokenIdent, s1)
    /\ parseParam pf rejectColonClose scanIdent s1 = Some (off, None, s2)
    /\ scan (set_mode (N.lor scanIdent scanRbrack) (set_accept acceptColon s2))
       = (tok, s3)
    /\ ((tok = tokenRbrack
         /\ node = FuncNode name (string_ s1) [off] /\ s' = s3)
        \/ (tok = tokenIdent
            /\ exists len s4,
                parseParam pf acceptNotClosing scanIdent s3
                = Some (len, None, s4)
                /\ node = FuncNode name (string_ s1) [off; len]
                /\ consumeRbrack s4 = (None, s'))).
Proof.
  unfold parseSubstrFunc.
  destruct (scan (set_mode scanIdent (set_accept acceptOneColon s)))
    as [tok1 s1] eqn:E1.
  destruct tok1; try discriminate.
  destruct (parseParam pf rejectColonClose scanIdent s1)
    as [[[off [err|]] s2]|] eqn:E2; try discriminate.
  destruct (scan (set_mode (N.lor scanIdent scanRbrack)
                    (set_accept acceptColon s2))) as [tok s3] eqn:E3.
  intros E. exists s1, off, s2, tok, s3.
  repeat split; try reflexivity; try assumption.
  destruct tok; try discriminate E.
  - right. split; [reflexivity|].
    destruct (parseParam pf acceptNotClosing scanIdent s3)
      as [[[len [err|]] s4]|] eqn:E4; try discriminate.
    apply closing_inv in E. destruct E as [-> C].
    exists len, s4. repeat split; assumption.
  - left. inversion E; subst. repeat split; reflexivity.
Qed.

Lemma consumeRbrack_ok (s s' : S) :
  consumeRbrack s = (None, s') ->
  scan (set_mode scanRbrack s) = (tokenRbrack, s').
Proof.
  unfold consumeRbrack. destruct (scan _) as [tok s1].
  destruct tok; intros E; inversion E; reflexivity.
Qed.

Lemma consumeRbrack_token (s s' : S) :
  scan (set_mode scanRbrack s) = (tokenRbrack, s') ->
  consumeRbrack s = (None, s').
Proof. unfold consumeRbrack. intros ->. reflexivity. Qed.


(** C9, as the code has it.  parseParam wraps the text of a closing-brace
    token in a Text node, as it does for an identifier token; on a token
    that is none of the three kinds it fails with ErrParseFuncSubstitution;
    and when it fails with that error, either the token was none of the
    three kinds, or it was the open-brace token and the error is the one the
    nested parseFunc returned. *)
Theorem parseParam_outcomes (pf : production) (a : acceptFunc) (m : N)
    (s : S) :
  let '(tok, s1) := scan (set_mode (N.lor m scanLbrack) (set_accept a s)) in
  (tok = tokenRbrack \/ tok = tokenIdent ->
   parseParam pf a m s = Some (TextNode (string_ s1), None, s1))
  /\ (tok <> tokenLbrack /\ tok <> tokenIdent /\ tok <> tokenRbrack ->
      parseParam pf a m s = Some (nil_node, Some ErrParseFuncSubstitution, s1))
  /\ (forall n s',
      parseParam pf a m s = Some (n, Some ErrParseFuncSubstitution, s') ->
      (tok <> tokenLbrack /\ tok <> tokenIdent /\ tok <> tokenRbrack)
      \/ (tok = tokenLbrack
          /\ pf s1 = Some (n, Some ErrParseFuncSubstitution, s'))).
Proof.
  pose proof (parseParam_cases pf a m s) as C.
  destruct (scan _) as [tok s1]. rewrite C. clear C.
  split; [|split].
  - intros [-> | ->]; reflexivity.
  - intros (L & I & R). destruct tok; try reflexivity; congruence.
  - intros n s' E. destruct tok; try discriminate E.
    + left. repeat split; discriminate.
    + left. repeat split; discriminate.
    + right. split; [reflexivity | exact E].
Qed.

(** ** The shape of the trees (C7) *)

Ltac crunch E :=
  repeat (match type of E with
          | context [match ?x with _ => _ end] => destruct x eqn:?
          end; cbv beta iota in E; try discriminate E).

Lemma parseParam_shape (pf : production) (a : acceptFunc) (m : N)
    (s : S) (n : Node) (s' : S) :
  sound_production pf ->
  parseParam pf a m s = Some (n, None, s') -> no_empty_child n = true.
Proof.
  intros OK E. apply parseParam_success in E.
  destruct E as [[v ->] | [s1 E]]; [reflexivity|].
  apply OK in E. tauto.
Qed.

Ltac params OK :=
  repeat match goal with
         | P : parseParam _ _ _ _ = Some (_, None, _) |- _ =>
           apply (parseParam_shape _ _ _ _ _ _ OK) in P
         end.

Ltac close_func E OK :=
  crunch E; params OK;
  try (apply closing_inv in E; destruct E as [-> _]);
  try (inversion E; subst; clear E);
  simpl; repeat match goal with P : no_empty_child _ = true |- _ =>
                               rewrite P; clear P end;
  auto.

Lemma parseSubstrFunc_sound (pf : production) (name : string) :
  sound_production pf -> sound_production (parseSubstrFunc pf name).
Proof.
  intros OK s n s' E. unfold parseSubstrFunc in E. close_func E OK.
Qed.

Lemma parseRemoveFunc_sound (pf : production) (name : string)
    (a : acceptFunc) :
  sound_production pf -> sound_production (parseRemoveFunc pf name a).
Proof.
  intros OK s n s' E. unfold parseRemoveFunc in E. close_func E OK.
Qed.

Lemma parseReplaceFunc_sound (pf : production) (name : string) :
  sound_production pf -> sound_production (parseReplaceFunc pf name).
Proof.
  intros OK s n s' E. unfold parseReplaceFunc in E. close_func E OK.
Qed.

Lemma parseCasingFunc_sound (name : string) :
  sound_production (parseCasingFunc name).
Proof.
  intros s n s' E. unfold parseCasingFunc in E.
  crunch E. apply closing_inv in E. destruct E as [-> _]. auto.
Qed.

Lemma parseLenFunc_sound : sound_production parseLenFunc.
Proof.
  intros s n s' E. unfold parseLenFunc in E.
  crunch E. apply closing_inv in E. destruct E as [-> _]. auto.
Qed.

Lemma defaultLoop_sound (pf : production) (fuel : nat) (name opname : string) :
  sound_production pf ->
  forall args, forallb no_empty_child args = true ->
  sound_production (defaultLoop pf fuel name opname args).
Proof.
  intros OK. induction fuel as [|fuel IH]; intros args A s n s' E.
  - discriminate E.
  - simpl in E. destruct (rune_eqb (peek s) "}").
    + apply closing_inv in E. destruct E as [-> _]. auto.
    + destruct (parseParam pf acceptNotClosing scanIdent s)
        as [[[p [err|]] s1]|] eqn:P; try discriminate E.
      apply (parseParam_shape _ _ _ _ _ _ OK) in P.
      eapply IH; [|exact E].
      rewrite forallb_app, A. simpl. rewrite P. reflexivity.
Qed.

Lemma parseDefaultFunc_sound (pf : production) (fuel : nat) (name : string) :
  sound_production pf -> sound_production (parseDefaultFunc pf fuel name).
Proof.
  intros OK s n s' E. unfold parseDefaultFunc in E.
  destruct (scan _) as [tok s1]. destruct tok; try discriminate E.
  eapply (defaultLoop_sound pf fuel name _ OK []); [reflexivity | exact E].
Qed.

Lemma parseDefaultOrSubstr_sound (pf : production) (fuel : nat)
    (name : string) :
  sound_production pf -> sound_production (parseDefaultOrSubstr pf fuel name).
Proof.
  intros OK s n s' E. unfold parseDefaultOrSubstr in E.
  destruct (read s) as [r0 s1].
  destruct (isDefaultOp (peek s1)).
  - eapply parseDefaultFunc_sound; eassumption.
  - eapply parseSubstrFunc_sound; eassumption.
Qed.

Lemma parseFuncBody_sound (pf : production) (fuel : nat) :
  sound_production pf -> sound_production (parseFuncBody pf fuel).
Proof.
  intros OK s n s' E. unfold parseFuncBody in E.
  destruct (rune_eqb (peek (set_escapeChars escapeAll s)) "#").
  { eapply parseLenFunc_sound; eassumption. }
  destruct (scan _) as [tok s1]. destruct tok; try discriminate E.
  destruct (rune_eqb (peek s1) ":").
  { eapply parseDefaultOrSubstr_sound; eassumption. }
  destruct (rune_eqb (peek s1) "=").
  { eapply parseDefaultFunc_sound; eassumption. }
  destruct (rune_eqb (peek s1) "," || rune_eqb (peek s1) "^").
  { eapply parseCasingFunc_sound; eassumption. }
  destruct (rune_eqb (peek s1) "/").
  { eapply parseReplaceFunc_sound; eassumption. }
  destruct (rune_eqb (peek s1) "#").
  { eapply parseRemoveFunc_sound; eassumption. }
  destruct (rune_eqb (peek s1) "%").
  { eapply parseRemoveFunc_sound; eassumption. }
  destruct (scan _) as [tok s2]. destruct tok; try discriminate E.
  inversion E; subst. auto.
Qed.

Lemma parseFunc_sound (fuel : nat) : sound_production (parseFunc fuel).
Proof.
  induction fuel as [|fuel IH].
  - intros s n s' E. discriminate E.
  - simpl. apply parseFuncBody_sound. exact IH.
Qed.

Lemma joinRight_shape (l n : Node) (r : option result) (s' : S) :
  is_empty l = false -> no_empty_child l = true ->
  (forall rn rs, r = Some (rn, None, rs) -> no_empty_child rn = true) ->
  joinRight l r = Some (n, None, s') -> no_empty_child n = true.
Proof.
  intros L1 L2 R E. unfold joinRight in E.
  destruct r as [[[rn [re|]] rs]|]; try discriminate E.
  specialize (R rn rs eq_refl).
  destruct (is_empty rn) eqn:Em; inversion E; subst; [assumption|].
  simpl. rewrite L1, Em, L2, R. reflexivity.
Qed.

Lemma parseAny_shape (fuel : nat) (s : S) (n : Node) (s' : S) :
  parseAny fuel s = Some (n, None, s') -> no_empty_child n = true.
Proof.
  revert s n s'. induction fuel as [|fuel IH]; intros s n s' E.
  - discriminate E.
  - simpl in E. destruct (scan _) as [tok s1].
    destruct tok; try discriminate E.
    + inversion E; reflexivity.
    + eapply joinRight_shape; [| | |exact E]; try reflexivity.
      intros rn rs R. eapply IH; exact R.
    + destruct (parseFunc fuel s1) as [[[ln [le|]] ls]|] eqn:F;
        try discriminate E.
      apply parseFunc_sound in F. destruct F as [F1 F2].
      eapply joinRight_shape; [exact F1 | exact F2 | | exact E].
      intros rn rs R. eapply IH; exact R.
Qed.

Lemma parseAny_step (fuel : nat) (s : S) :
  parseAny (Datatypes.S fuel) s =
  let '(tok, s1) := scan (anyScanner s) in
  match tok with
  | tokenIdent => joinRight (newTextNode (string_ s1)) (parseAny fuel s1)
  | tokenEOF => Some (empty, None, s1)
  | tokenLbrack =>
    match parseFunc fuel s1 with
    | None => None
    | Some (_, Some err, s2) => Some (nil_node, Some err, s2)
    | Some (left_, None, s2) => joinRight left_ (parseAny fuel s2)
    end
  | _ => Some (nil_node, Some ErrBadSubstitution, s1)
  end.
Proof. reflexivity. Qed.

(** C7.  In the tree of a successful Parse no List node has the sentinel
    [empty] as a child; and parseAny returns the node of a production as it
    is, without a List around it, when what follows parses to [empty]. *)
Theorem Parse_list_nodes :
  (forall fuel buf (t : Tree),
      Parse fuel buf = Some (t, None) -> no_empty_child (Root t) = true)
  /\ (forall fuel (s s1 s2 : S),
      scan (anyScanner s) = (tokenIdent, s1) ->
      parseAny fuel s1 = Some (empty, None, s2) ->
      parseAny (Datatypes.S fuel) s = Some (TextNode (string_ s1), None, s2))
  /\ (forall fuel (s s1 s2 s3 : S) (node : Node),
      scan (anyScanner s) = (tokenLbrack, s1) ->
      parseFunc fuel s1 = Some (node, None, s2) ->
      parseAny fuel s2 = Some (empty, None, s3) ->
      parseAny (Datatypes.S fuel) s = Some (node, None, s3)).
Proof.
  split; [|split].
  - intros fuel buf t. unfold Parse.
    destruct (parseAny fuel (init buf zero)) as [[[n err] s1]|] eqn:E;
      [|discriminate].
    intros P. inversion P; subst. simpl.
    eapply parseAny_shape; exact E.
  - intros fuel s s1 s2 Sc R.
    rewrite parseAny_step, Sc, R. reflexivity.
  - intros fuel s s1 s2 s3 node Sc F R.
    rewrite parseAny_step, Sc, F, R. reflexivity.
Qed.

End ParserFacts.

(** * Termination, for a scanner that consumes input

    The budget of parseFunc and parseAny is never used up when it exceeds a
    measure [size] of the scanner that the setters leave alone, that no scan
    increases, that every scan returning an identifier, open-brace or
    closing-brace token decreases, and that read followed by unread does not
    increase. *)

Section Termination.

Context {S : Type} `{Scanner S}.

Variable size : S -> nat.

Hypothesis size_set_accept : forall a s, size (set_accept a s) = size s.
Hypothesis size_set_mode : forall m s, size (set_mode m s) = size s.
Hypothesis size_set_escapeChars :
  forall e s, size (set_escapeChars e s) = size s.
Hypothesis scan_size :
  forall s tok s', scan s = (tok, s') -> size s' <= size s.
Hypothesis scan_consumes :
  forall s tok s', scan s = (tok, s') ->
    tok = tokenIdent \/ tok = tokenLbrack \/ tok = tokenRbrack ->
    size s' < size s.
Hypothesis unread_read_size :
  forall s, size (unread (snd (read s))) <= size s.

Ltac sizes :=
  repeat rewrite ?size_set_accept, ?size_set_mode, ?size_set_escapeChars in *.

Ltac scanning tok s1 :=
  let E := fresh "Sc" in
  let L := fresh "Le" in
  let C := fresh "Lt" in
  match goal with
  | |- context [scan ?x] => destruct (scan x) as [tok s1] eqn:E
  end;
  pose proof (scan_size _ _ _ E) as L;
  pose proof (scan_consumes _ _ _ E) as C;
  sizes.

Lemma returns_now (n : Node) (e : option error) (s : S) (bound : nat) :
  size s <= bound -> returns size (Some (n, e, s)) bound.
Proof. intros L. exists n, e, s. split; [reflexivity | exact L]. Qed.

Lemma returns_le (p : option result) (b b' : nat) :
  returns size p b -> b <= b' -> returns size p b'.
Proof.
  intros (n & e & s' & E & L) B. exists n, e, s'. split; [exact E | lia].
Qed.

Lemma closing_returns (node : Node) (s : S) :
  returns size (closing node s) (size s).
Proof.
  unfold closing, consumeRbrack. scanning tok s1.
  destruct tok; apply returns_now; lia.
Qed.

Lemma parseParam_advances (pf : production) (k : nat) (a : acceptFunc)
    (m : N) (s : S) :
  total_below size pf k -> size s <= k -> advances size (parseParam pf a m s) (size s).
Proof.
  intros T K. unfold parseParam. scanning tok s1.
  destruct tok.
  - exists nil_node, (Some ErrParseFuncSubstitution), s1.
    repeat split; [lia | discriminate].
  - exists nil_node, (Some ErrParseFuncSubstitution), s1.
    repeat split; [lia | discriminate].
  - exists (newTextNode (string_ s1)), None, s1.
    repeat split; [lia | intros _; apply Lt; auto].
  - assert (size s1 < size s) as D by (apply Lt; auto).
    destruct (T s1) as (n & e & s' & E & L); [lia|].
    exists n, e, s'. repeat split; [exact E | lia | intros _; lia].
  - exists (newTextNode (string_ s1)), None, s1.
    repeat split; [lia | intros _; apply Lt; auto].
Qed.

Ltac param T s1 :=
  let P := fresh "P" in
  let n := fresh "n" in
  let e := fresh "e" in
  let L := fresh "L" in
  let D := fresh "D" in
  match goal with
  | |- context [parseParam ?pf ?a ?m ?s] =>
    destruct (parseParam_advances pf _ a m s T) as (n & e & s1 & P & L & D);
    [lia | rewrite P; destruct e as [e|];
           [apply returns_now; lia | specialize (D eq_refl)]]
  end.

Ltac finish :=
  solve [ apply returns_now; lia
        | eapply returns_le; [apply closing_returns | lia] ].

Lemma parseSubstrFunc_returns (pf : production) (k : nat) (name : string)
    (s : S) :
  total_below size pf k -> size s <= k ->
  returns size (parseSubstrFunc pf name s) (size s).
Proof.
  intros T K. unfold parseSubstrFunc. scanning tok s1.
  destruct tok; try finish.
  param T s2. scanning tok2 s3. destruct tok2; try finish.
  param T s4. finish.
Qed.

Lemma parseRemoveFunc_returns (pf : production) (k : nat) (name : string)
    (a : acceptFunc) (s : S) :
  total_below size pf k -> size s <= k ->
  returns size (parseRemoveFunc pf name a s) (size s).
Proof.
  intros T K. unfold parseRemoveFunc. scanning tok s1.
  destruct tok; try finish.
  param T s2. finish.
Qed.

Lemma parseReplaceFunc_returns (pf : production) (k : nat) (name : string)
    (s : S) :
  total_below size pf k -> size s <= k ->
  returns size (parseReplaceFunc pf name s) (size s).
Proof.
  intros T K. unfold parseReplaceFunc. scanning tok s1.
  destruct tok; try finish.
  param T s2. scanning tok2 s3. destruct tok2; try finish.
  destruct (rune_eqb (peek s3) "}"); [finish|].
  param T s4. finish.
Qed.

Lemma parseCasingFunc_returns (name : string) (s : S) :
  returns size (parseCasingFunc name s) (size s).
Proof.
  unfold parseCasingFunc. scanning tok s1. destruct tok; finish.
Qed.

Lemma parseLenFunc_returns (s : S) : returns size (parseLenFunc s) (size s).
Proof.
  unfold parseLenFunc. scanning tok s1. destruct tok; try finish.
  scanning tok2 s2. destruct tok2; finish.
Qed.

Lemma defaultLoop_returns (pf : production) (k : nat) (name opname : string)
    (T : total_below size pf k) (fuel : nat) :
  forall (args : list Node) (s : S),
    size s < fuel -> size s <= k ->
    returns size (defaultLoop pf fuel name opname args s) (size s).
Proof.
  induction fuel as [|fuel IH]; intros args s F K; [lia|].
  simpl. destruct (rune_eqb (peek s) "}"); [finish|].
  param T s1.
  eapply returns_le; [apply IH; lia | lia].
Qed.

Lemma parseDefaultFunc_returns (pf : production) (k fuel : nat)
    (name : string) (s : S) :
  total_below size pf k -> size s <= k -> size s <= fuel ->
  returns size (parseDefaultFunc pf fuel name s) (size s).
Proof.
  intros T K F. unfold parseDefaultFunc.
  destruct (rune_eqb (peek (set_accept acceptDefaultFunc s)) "=").
  - scanning tok s1. destruct tok; try finish.
    assert (size s1 < size s) by auto.
    eapply returns_le; [apply (defaultLoop_returns pf k); [exact T|lia|lia] | lia].
  - scanning tok s1. destruct tok; try finish.
    assert (size s1 < size s) by auto.
    eapply returns_le; [apply (defaultLoop_returns pf k); [exact T|lia|lia] | lia].
Qed.

Lemma parseDefaultOrSubstr_returns (pf : production) (k fuel : nat)
    (name : string) (s : S) :
  total_below size pf k -> size s <= k -> size s <= fuel ->
  returns size (parseDefaultOrSubstr pf fuel name s) (size s).
Proof.
  intros T K F. unfold parseDefaultOrSubstr.
  pose proof (unread_read_size s) as U.
  destruct (read s) as [r0 s1]. simpl in U.
  destruct (isDefaultOp (peek s1)).
  - eapply returns_le; [apply (parseDefaultFunc_returns pf k); [exact T|lia|lia] | lia].
  - eapply returns_le; [apply (parseSubstrFunc_returns pf k); [exact T|lia] | lia].
Qed.

Lemma parseFuncBody_returns (pf : production) (fuel : nat) (s : S) :
  total_below size pf fuel -> size s <= fuel ->
  returns size (parseFuncBody pf fuel s) (size s).
Proof.
  intros T F. unfold parseFuncBody.
  destruct (rune_eqb (peek (set_escapeChars escapeAll s)) "#").
  { eapply returns_le; [apply parseLenFunc_returns | sizes; lia]. }
  scanning tok s1. destruct tok; try finish.
  destruct (rune_eqb (peek s1) ":").
  { eapply returns_le;
      [apply (parseDefaultOrSubstr_returns pf fuel); [exact T|lia|lia] | lia]. }
  destruct (rune_eqb (peek s1) "=").
  { eapply returns_le;
      [apply (parseDefaultFunc_returns pf fuel); [exact T|lia|lia] | lia]. }
  destruct (rune_eqb (peek s1) "," || rune_eqb (peek s1) "^").
  { eapply returns_le; [apply parseCasingFunc_returns | lia]. }
  destruct (rune_eqb (peek s1) "/").
  { eapply returns_le;
      [apply (parseReplaceFunc_returns pf fuel); [exact T|lia] | lia]. }
  destruct (rune_eqb (peek s1) "#").
  { eapply returns_le;
      [apply (parseRemoveFunc_returns pf fuel); [exact T|lia] | lia]. }
  destruct (rune_eqb (peek s1) "%").
  { eapply returns_le;
      [apply (parseRemoveFunc_returns pf fuel); [exact T|lia] | lia]. }
  scanning tok2 s2. destruct tok2; finish.
Qed.

Lemma parseFunc_total (fuel : nat) : total_below size (parseFunc fuel) fuel.
Proof.
  induction fuel as [|fuel IH]; intros s L; [lia|].
  simpl. apply parseFuncBody_returns; [exact IH | lia].
Qed.

Lemma joinRight_returns (l : Node) (r : option result) (bound : nat) :
  returns size r bound -> returns size (joinRight l r) bound.
Proof.
  intros (n & e & s' & -> & L). unfold joinRight.
  destruct e as [e|]; [apply returns_now; exact L|].
  destruct (is_empty n); apply returns_now; exact L.
Qed.

Lemma parseAny_total (fuel : nat) :
  forall s, size s < fuel -> returns size (parseAny fuel s) (size s).
Proof.
  induction fuel as [|fuel IH]; intros s L; [lia|].
  simpl. scanning tok s1. destruct tok; try finish.
  - assert (size s1 < size s) by auto.
    apply joinRight_returns.
    eapply returns_le; [apply IH; lia | lia].
  - assert (size s1 < size s) as D by auto.
    destruct (parseFunc_total fuel s1) as (n & e & s2 & -> & L2); [lia|].
    destruct e as [e|]; [apply returns_now; lia|].
    apply joinRight_returns.
    eapply returns_le; [apply IH; lia | lia].
Qed.

(** X7.  Parse returns with every scanner that consumes input: when no scan
    lengthens what is left to read, every scan that returns an identifier,
    open-brace or closing-brace token shortens it, the three setters leave
    it alone and read followed by unread does not lengthen it, a budget
    above the size of the initial scanner is never used up.  Every
    recursive call of the parser and every turn of the loop of
    parseDefaultFunc comes after such a scan. *)
Lemma Parse_total (fuel : nat) (buf : string) :
  size (init buf zero) < fuel ->
  exists t e, Parse fuel buf = Some (t, e).
Proof.
  intros L. unfold Parse.
  destruct (parseAny_total fuel _ L) as (n & e & s' & -> & _).
  eexists; eexists; reflexivity.
Qed.

End Termination.

(** * A larger budget does not change a result *)

Section Budget.

Context {S : Type} `{Scanner S}.

Lemma parseParam_extends (pf pf' : production) (a : acceptFunc) (m : N) :
  extends pf pf' -> extends (parseParam pf a m) (parseParam pf' a m).
Proof.
  intros M s r E. unfold parseParam in *.
  destruct (scan _) as [tok s1]. destruct tok; auto.
Qed.

Ltac grow M E :=
  repeat first
    [ match type of E with
      | context [match scan ?x with _ => _ end] =>
        destruct (scan x) as [[] ?]; cbv beta iota in E |- *;
        try exact E
      end
    | match type of E with
      | context [parseParam ?pf ?a ?m ?x] =>
        let P := fresh "P" in
        destruct (parseParam pf a m x) as [[[? [?|]] ?]|] eqn:P;
        [ apply (parseParam_extends _ _ a m M) in P; rewrite P;
          cbv beta iota in E |- *; try exact E
        | apply (parseParam_extends _ _ a m M) in P; rewrite P;
          cbv beta iota in E |- *; try exact E
        | discriminate E ]
      end
    | match type of E with
      | context [if ?b then _ else _] =>
        destruct b; cbv beta iota in E |- *; try exact E
      end ].

Lemma parseSubstrFunc_extends (pf pf' : production) (name : string) :
  extends pf pf' ->
  extends (parseSubstrFunc pf name) (parseSubstrFunc pf' name).
Proof. intros M s r E. unfold parseSubstrFunc in *. grow M E. Qed.

Lemma parseRemoveFunc_extends (pf pf' : production) (name : string)
    (a : acceptFunc) :
  extends pf pf' ->
  extends (parseRemoveFunc pf name a) (parseRemoveFunc pf' name a).
Proof. intros M s r E. unfold parseRemoveFunc in *. grow M E. Qed.

Lemma parseReplaceFunc_extends (pf pf' : production) (name : string) :
  extends pf pf' ->
  extends (parseReplaceFunc pf name) (parseReplaceFunc pf' name).
Proof. intros M s r E. unfold parseReplaceFunc in *. grow M E. Qed.

Lemma defaultLoop_extends (pf pf' : production) (name opname : string)
    (M : extends pf pf') (fuel : nat) :
  forall fuel' args, fuel <= fuel' ->
    extends (defaultLoop pf fuel name opname args)
            (defaultLoop pf' fuel' name opname args).
Proof.
  induction fuel as [|fuel IH]; intros fuel' args L s r E; [discriminate E|].
  destruct fuel' as [|fuel']; [lia|].
  simpl in *. destruct (rune_eqb (peek s) "}"); [exact E|].
  destruct (parseParam pf acceptNotClosing scanIdent s)
    as [[[p [err|]] s1]|] eqn:P; try discriminate E;
    apply (parseParam_extends _ _ _ _ M) in P; rewrite P; [exact E|].
  eapply IH; [|exact E]. lia.
Qed.

Lemma parseDefaultFunc_extends (pf pf' : production) (fuel fuel' : nat)
    (name : string) :
  extends pf pf' -> fuel <= fuel' ->
  extends (parseDefaultFunc pf fuel name) (parseDefaultFunc pf' fuel' name).
Proof.
  intros M L s r E. unfold parseDefaultFunc in *.
  destruct (scan _) as [tok s1]. destruct tok; try exact E.
  eapply defaultLoop_extends; eassumption.
Qed.

Lemma parseDefaultOrSubstr_extends (pf pf' : production) (fuel fuel' : nat)
    (name : string) :
  extends pf pf' -> fuel <= fuel' ->
  extends (parseDefaultOrSubstr pf fuel name)
          (parseDefaultOrSubstr pf' fuel' name).
Proof.
  intros M L s r E. unfold parseDefaultOrSubstr in *.
  destruct (read s) as [r0 s1]. destruct (isDefaultOp (peek s1)).
  - eapply parseDefaultFunc_extends; eassumption.
  - eapply parseSubstrFunc_extends; eassumption.
Qed.

Lemma parseFuncBody_extends (pf pf' : production) (fuel fuel' : nat) :
  extends pf pf' -> fuel <= fuel' ->
  extends (parseFuncBody pf fuel) (parseFuncBody pf' fuel').
Proof.
  intros M L s r E. unfold parseFuncBody in *.
  destruct (rune_eqb (peek (set_escapeChars escapeAll s)) "#"); [exact E|].
  destruct (scan _) as [tok s1]. destruct tok; try exact E.
  destruct (rune_eqb (peek s1) ":").
  { eapply parseDefaultOrSubstr_extends; eassumption. }
  destruct (rune_eqb (peek s1) "=").
  { eapply parseDefaultFunc_extends; eassumption. }
  destruct (rune_eqb (peek s1) "," || rune_eqb (peek s1) "^"); [exact E|].
  destruct (rune_eqb (peek s1) "/").
  { eapply parseReplaceFunc_extends; eassumption. }
  destruct (rune_eqb (peek s1) "#").
  { eapply parseRemoveFunc_extends; eassumption. }
  destruct (rune_eqb (peek s1) "%").
  { eapply parseRemoveFunc_extends; eassumption. }
  exact E.
Qed.

Lemma parseFunc_extends (fuel : nat) :
  forall fuel', fuel <= fuel' -> extends (parseFunc fuel) (parseFunc fuel').
Proof.
  induction fuel as [|fuel IH]; intros fuel' L s r E; [discriminate E|].
  destruct fuel' as [|fuel']; [lia|].
  simpl in *. eapply parseFuncBody_extends; [apply IH| |exact E]; lia.
Qed.

Lemma joinRight_extends (l : Node) (p q : option (result (S := S)))
    (r : result) :
  (forall x, p = Some x -> q = Some x) ->
  joinRight l p = Some r -> joinRight l q = Some r.
Proof.
  intros M E. destruct p as [x|]; [|discriminate E].
  rewrite (M x eq_refl). exact E.
Qed.

Lemma parseAny_extends (fuel : nat) :
  forall fuel', fuel <= fuel' -> extends (parseAny fuel) (parseAny fuel').
Proof.
  induction fuel as [|fuel IH]; intros fuel' L s r E; [discriminate E|].
  destruct fuel' as [|fuel']; [lia|].
  simpl in *. destruct (scan _) as [tok s1]. destruct tok; try exact E.
  - eapply joinRight_extends; [|exact E].
    intros x X. eapply IH; [|exact X]. lia.
  - destruct (parseFunc fuel s1) as [[[ln [le|]] ls]|] eqn:F;
      try discriminate E;
      apply (parseFunc_extends fuel fuel') in F; try lia; rewrite F;
      [exact E|].
    eapply joinRight_extends; [|exact E].
    intros x X. eapply IH; [|exact X]. lia.
Qed.

Lemma Parse_extends (fuel fuel' : nat) (buf : string)
    (r : Tree * option error) :
  fuel <= fuel' -> Parse fuel buf = Some r -> Parse fuel' buf = Some r.
Proof.
  intros L. unfold Parse.
  destruct (parseAny fuel (init buf zero)) as [[[n e] s1]|] eqn:E;
    [|discriminate].
  apply (parseAny_extends fuel fuel' L) in E. rewrite E. auto.
Qed.

End Budget.

(** * What a production reads

    For a scanner whose scans take runes off the input and add none. *)

Section Reach.

Context {S : Type} `{Scanner S}.

Variable rest_of : S -> list rune.
Variable z : rune.

Hypothesis rest_set_accept : forall a s, rest_of (set_accept a s) = rest_of s.
Hypothesis rest_set_mode : forall m s, rest_of (set_mode m s) = rest_of s.
Hypothesis rest_set_escapeChars :
  forall e s, rest_of (set_escapeChars e s) = rest_of s.
Hypothesis scan_incl :
  forall s tok s', scan s = (tok, s') -> incl (rest_of s') (rest_of s).
Hypothesis scan_rbrack :
  forall s s', scan s = (tokenRbrack, s') -> In "}" (rest_of s).
Hypothesis scan_eof :
  forall s s', scan s = (tokenEOF, s') ->
    rest_of s' = [] \/ In z (rest_of s).
Hypothesis unread_read_incl :
  forall s, incl (rest_of (unread (snd (read s)))) (rest_of s).

Ltac rests :=
  repeat rewrite ?rest_set_accept, ?rest_set_mode, ?rest_set_escapeChars in *.

Ltac scanning tok s1 :=
  let E := fresh "Sc" in
  let I := fresh "In" in
  match goal with
  | |- context [scan ?x] => destruct (scan x) as [tok s1] eqn:E
  end;
  pose proof (scan_incl _ _ _ E) as I;
  rests.

Ltac chain := unfold incl in *; eauto 12.

Lemma closing_closes (node n : Node) (s s' : S) :
  closing node s = Some (n, None, s') ->
  In "}" (rest_of s) /\ incl (rest_of s') (rest_of s).
Proof.
  unfold closing, consumeRbrack.
  destruct (scan (set_mode scanRbrack s)) as [tok s1] eqn:E.
  pose proof (scan_incl _ _ _ E) as I.
  destruct tok; intros X; inversion X; subst.
  apply scan_rbrack in E. rests. split; assumption.
Qed.

Lemma parseParam_incl (pf : production) (a : acceptFunc) (m : N)
    (s s' : S) (n : Node) :
  closes rest_of pf ->
  parseParam pf a m s = Some (n, None, s') ->
  incl (rest_of s') (rest_of s).
Proof.
  intros C. unfold parseParam. scanning tok s1.
  destruct tok; intros X; try (inversion X; subst; assumption).
  destruct (C _ _ _ X) as [_ I]. chain.
Qed.

Ltac param pf C p s2 :=
  let E := fresh "Pa" in
  let I := fresh "In" in
  match goal with
  | |- context [parseParam pf ?a ?m ?x] =>
    destruct (parseParam pf a m x) as [[[p [?|]] s2]|] eqn:E;
    try discriminate;
    pose proof (parseParam_incl pf a m _ _ _ C E) as I
  end.

Ltac closed :=
  let X := fresh "X" in
  let A := fresh "A" in
  let B := fresh "B" in
  intros X; apply closing_closes in X; destruct X as [A B];
  split; chain.

Lemma parseSubstrFunc_closes (pf : production) (name : string) :
  closes rest_of pf -> closes rest_of (parseSubstrFunc pf name).
Proof.
  intros C s n s'. unfold parseSubstrFunc.
  scanning tok s1. destruct tok; try discriminate.
  param pf C p s2.
  match goal with
  | |- context [scan ?x] => destruct (scan x) as [tok s3] eqn:E3
  end.
  pose proof (scan_incl _ _ _ E3) as I3.
  destruct tok; try discriminate.
  - rests. param pf C q s4. closed.
  - intros X; inversion X; subst. apply scan_rbrack in E3. rests.
    split; chain.
Qed.

Lemma parseRemoveFunc_closes (pf : production) (name : string)
    (a : acceptFunc) :
  closes rest_of pf -> closes rest_of (parseRemoveFunc pf name a).
Proof.
  intros C s n s'. unfold parseRemoveFunc.
  scanning tok s1. destruct tok; try discriminate.
  param pf C p s2. closed.
Qed.

Lemma parseReplaceFunc_closes (pf : production) (name : string) :
  closes rest_of pf -> closes rest_of (parseReplaceFunc pf name).
Proof.
  intros C s n s'. unfold parseReplaceFunc.
  scanning tok s1. destruct tok; try discriminate.
  param pf C p s2.
  scanning tok s3. destruct tok; try discriminate.
  destruct (rune_eqb (peek s3) "}"); [closed|].
  param pf C q s4. closed.
Qed.

Lemma parseCasingFunc_closes (name : string) :
  closes rest_of (parseCasingFunc name).
Proof.
  intros s n s'. unfold parseCasingFunc.
  scanning tok s1. destruct tok; try discriminate. closed.
Qed.

Lemma parseLenFunc_closes : closes rest_of parseLenFunc.
Proof.
  intros s n s'. unfold parseLenFunc.
  scanning tok s1. destruct tok; try discriminate.
  scanning tok s2. destruct tok; try discriminate. closed.
Qed.

Lemma defaultLoop_closes (pf : production) (fuel : nat) (name opname : string) :
  closes rest_of pf ->
  forall args, closes rest_of (defaultLoop pf fuel name opname args).
Proof.
  intros C. induction fuel as [|fuel IH]; intros args s n s';
    [discriminate|].
  cbn [defaultLoop].
  destruct (rune_eqb (peek s) "}"); [closed|].
  param pf C p s2. intros X. apply IH in X. destruct X as [A B].
  split; chain.
Qed.

Lemma parseDefaultFunc_closes (pf : production) (fuel : nat) (name : string) :
  closes rest_of pf -> closes rest_of (parseDefaultFunc pf fuel name).
Proof.
  intros C s n s'. unfold parseDefaultFunc.
  destruct (rune_eqb (peek (set_accept acceptDefaultFunc s)) "=");
    scanning tok s1; (destruct tok; try discriminate);
    intros X; apply (defaultLoop_closes pf fuel _ _ C) in X;
    destruct X as [A B]; split; chain.
Qed.

Lemma parseDefaultOrSubstr_closes (pf : production) (fuel : nat)
    (name : string) :
  closes rest_of pf -> closes rest_of (parseDefaultOrSubstr pf fuel name).
Proof.
  intros C s n s'. unfold parseDefaultOrSubstr.
  pose proof (unread_read_incl s) as U.
  destruct (read s) as [r0 s0]. cbn [snd] in U.
  destruct (isDefaultOp (peek s0)); intros X.
  - apply (parseDefaultFunc_closes pf fuel name C) in X.
    destruct X as [A B]. split; chain.
  - apply (parseSubstrFunc_closes pf name C) in X.
    destruct X as [A B]. split; chain.
Qed.

Lemma parseFuncBody_closes (pf : production) (fuel : nat) :
  closes rest_of pf -> closes rest_of (parseFuncBody pf fuel).
Proof.
  intros C s n s'. unfold parseFuncBody.
  destruct (rune_eqb (peek (set_escapeChars escapeAll s)) "#").
  { intros X. apply parseLenFunc_closes in X. rests. exact X. }
  scanning tok s1. destruct tok; try discriminate.
  destruct (rune_eqb (peek s1) ":").
  { intros X. apply (parseDefaultOrSubstr_closes pf fuel _ C) in X.
    destruct X as [A B]. split; chain. }
  destruct (rune_eqb (peek s1) "=").
  { intros X. apply (parseDefaultFunc_closes pf fuel _ C) in X.
    destruct X as [A B]. split; chain. }
  destruct (rune_eqb (peek s1) "," || rune_eqb (peek s1) "^").
  { intros X. apply parseCasingFunc_closes in X.
    destruct X as [A B]. split; chain. }
  destruct (rune_eqb (peek s1) "/").
  { intros X. apply (parseReplaceFunc_closes pf _ C) in X.
    destruct X as [A B]. split; chain. }
  destruct (rune_eqb (peek s1) "#").
  { intros X. apply (parseRemoveFunc_closes pf _ _ C) in X.
    destruct X as [A B]. split; chain. }
  destruct (rune_eqb (peek s1) "%").
  { intros X. apply (parseRemoveFunc_closes pf _ _ C) in X.
    destruct X as [A B]. split; chain. }
  match goal with
  | |- context [scan ?x] => destruct (scan x) as [tok s2] eqn:E2
  end.
  pose proof (scan_incl _ _ _ E2) as I2.
  destruct tok; try discriminate.
  intros X; inversion X; subst. apply scan_rbrack in E2. rests.
  split; chain.
Qed.

Lemma parseFunc_closes (fuel : nat) : closes rest_of (parseFunc fuel).
Proof.
  induction fuel as [|fuel IH]; [intros s n s'; discriminate|].
  cbn [parseFunc]. apply parseFuncBody_closes. exact IH.
Qed.

Lemma joinRight_incl (l n : Node) (r : option result) (s0 s' : S) :
  (forall m, r = Some (m, None, s') ->
     incl (rest_of s') (rest_of s0)
     /\ (rest_of s' = [] \/ In z (rest_of s0))) ->
  joinRight l r = Some (n, None, s') ->
  incl (rest_of s') (rest_of s0) /\ (rest_of s' = [] \/ In z (rest_of s0)).
Proof.
  intros R. unfold joinRight.
  destruct r as [[[rn [re|]] rs]|]; try discriminate.
  destruct (is_empty rn); intros X; inversion X; subst; eapply R; reflexivity.
Qed.

Lemma parseAny_end (fuel : nat) :
  forall s n s', parseAny fuel s = Some (n, None, s') ->
    incl (rest_of s') (rest_of s)
    /\ (rest_of s' = [] \/ In z (rest_of s)).
Proof.
  induction fuel as [|fuel IH]; intros s n s'; [discriminate|].
  rewrite parseAny_step. unfold anyScanner.
  match goal with
  | |- context [scan ?x] => destruct (scan x) as [tok s1] eqn:E1
  end.
  pose proof (scan_incl _ _ _ E1) as I1.
  destruct tok; try discriminate.
  - intros X; inversion X; subst. apply scan_eof in E1. rests.
    split; assumption.
  - rests. intros X.
    apply (joinRight_incl _ _ _ s) in X; [exact X|].
    intros m E. apply IH in E. destruct E as [A [B|B]].
    + split; [chain | left; exact B].
    + split; [chain | right; chain].
  - rests. destruct (parseFunc fuel s1) as [[[ln [le|]] ls]|] eqn:F;
      try discriminate.
    apply parseFunc_closes in F. destruct F as [_ F].
    intros X. apply (joinRight_incl _ _ _ s) in X; [exact X|].
    intros m E. apply IH in E. destruct E as [A [B|B]].
    + split; [chain | left; exact B].
    + split; [chain | right; chain].
Qed.

End Reach.

(** * Where ErrMissingClosingBrace comes from *)

Section Origin.

Context {S : Type} `{Scanner S}.

Ltac open_up E :=
  repeat (match type of E with
          | context [match ?x with _ => _ end] => destruct x eqn:?
          end; cbv beta iota in E; try discriminate E).

Lemma parseParam_origin (pf : production) (a : acceptFunc) (m : N) :
  missingFromPlain pf -> missingFromPlain (parseParam pf a m).
Proof.
  intros NF s n s' E. unfold parseParam in E.
  destruct (scan _) as [tok s1]. destruct tok; try discriminate E.
  exact (NF _ _ _ E).
Qed.

Ltac trace E NF :=
  open_up E;
  try (apply closing_inv in E; destruct E as [_ E];
       apply consumeRbrack_error in E; discriminate E);
  inversion E; subst;
  match goal with
  | A : parseParam _ _ _ _ = Some (_, Some ErrMissingClosingBrace, _) |- _ =>
    exact (parseParam_origin _ _ _ NF _ _ _ A)
  end.

Lemma parseSubstrFunc_origin (pf : production) (name : string) :
  missingFromPlain pf -> missingFromPlain (parseSubstrFunc pf name).
Proof. intros NF s n s' E. unfold parseSubstrFunc in E. trace E NF. Qed.

Lemma parseRemoveFunc_origin (pf : production) (name : string)
    (a : acceptFunc) :
  missingFromPlain pf -> missingFromPlain (parseRemoveFunc pf name a).
Proof. intros NF s n s' E. unfold parseRemoveFunc in E. trace E NF. Qed.

Lemma parseReplaceFunc_origin (pf : production) (name : string) :
  missingFromPlain pf -> missingFromPlain (parseReplaceFunc pf name).
Proof. intros NF s n s' E. unfold parseReplaceFunc in E. trace E NF. Qed.

Lemma parseCasingFunc_origin (name : string) :
  missingFromPlain (parseCasingFunc name).
Proof.
  intros s n s' E. unfold parseCasingFunc in E. open_up E.
  apply closing_inv in E. destruct E as [_ E].
  apply consumeRbrack_error in E. discriminate E.
Qed.

Lemma parseLenFunc_origin : missingFromPlain parseLenFunc.
Proof.
  intros s n s' E. unfold parseLenFunc in E. open_up E.
  apply closing_inv in E. destruct E as [_ E].
  apply consumeRbrack_error in E. discriminate E.
Qed.

Lemma defaultLoop_origin (pf : production) (fuel : nat) (name opname : string) :
  missingFromPlain pf ->
  forall args, missingFromPlain (defaultLoop pf fuel name opname args).
Proof.
  intros NF. induction fuel as [|fuel IH]; intros args s n s' E.
  - discriminate E.
  - simpl in E. destruct (rune_eqb (peek s) "}").
    + apply closing_inv in E. destruct E as [_ E].
      apply consumeRbrack_error in E. discriminate E.
    + destruct (parseParam pf acceptNotClosing scanIdent s)
        as [[[p [err|]] s1]|] eqn:Pm; try discriminate E.
      * inversion E; subst. exact (parseParam_origin _ _ _ NF _ _ _ Pm).
      * exact (IH _ _ _ _ E).
Qed.

Lemma parseDefaultFunc_origin (pf : production) (fuel : nat) (name : string) :
  missingFromPlain pf -> missingFromPlain (parseDefaultFunc pf fuel name).
Proof.
  intros NF s n s' E. unfold parseDefaultFunc in E.
  destruct (scan _) as [tok s1]. destruct tok; try discriminate E.
  exact (defaultLoop_origin pf fuel name _ NF _ _ _ _ E).
Qed.

Lemma parseDefaultOrSubstr_origin (pf : production) (fuel : nat)
    (name : string) :
  missingFromPlain pf -> missingFromPlain (parseDefaultOrSubstr pf fuel name).
Proof.
  intros NF s n s' E. unfold parseDefaultOrSubstr in E.
  destruct (read s) as [r0 s0].
  destruct (isDefaultOp (peek s0)).
  - exact (parseDefaultFunc_origin pf fuel name NF _ _ _ E).
  - exact (parseSubstrFunc_origin pf name NF _ _ _ E).
Qed.

Lemma parseFuncBody_origin (pf : production) (fuel : nat) :
  missingFromPlain pf -> missingFromPlain (parseFuncBody pf fuel).
Proof.
  intros NF s n s' E. unfold parseFuncBody in E.
  destruct (rune_eqb (peek (set_escapeChars escapeAll s)) "#") eqn:Len.
  { exact (parseLenFunc_origin _ _ _ E). }
  destruct (scan (set_mode scanIdent
                    (set_accept acceptIdent (set_escapeChars escapeAll s))))
    as [tok s1] eqn:Sc.
  destruct tok; try discriminate E.
  destruct (rune_eqb (peek s1) ":") eqn:R1.
  { exact (parseDefaultOrSubstr_origin pf fuel _ NF _ _ _ E). }
  destruct (rune_eqb (peek s1) "=") eqn:R2.
  { exact (parseDefaultFunc_origin pf fuel _ NF _ _ _ E). }
  destruct (rune_eqb (peek s1) "," || rune_eqb (peek s1) "^") eqn:R3.
  { exact (parseCasingFunc_origin _ _ _ _ E). }
  destruct (rune_eqb (peek s1) "/") eqn:R4.
  { exact (parseReplaceFunc_origin pf _ NF _ _ _ E). }
  destruct (rune_eqb (peek s1) "#") eqn:R5.
  { exact (parseRemoveFunc_origin pf _ _ NF _ _ _ E). }
  destruct (rune_eqb (peek s1) "%") eqn:R6.
  { exact (parseRemoveFunc_origin pf _ _ NF _ _ _ E). }
  destruct (scan (set_mode scanRbrack (set_accept acceptIdent s1)))
    as [tok s2] eqn:Sc2.
  assert (s2 = s' /\ tok <> tokenRbrack) as [-> NR].
  { destruct tok; inversion E; subst; split; try reflexivity; discriminate. }
  exists s, s1, tok.
  split; [exact Len|]. split; [exact Sc|]. split; [|split; assumption].
  unfold isOperatorRune. apply orb_false_iff in R3. destruct R3 as [R3 R3'].
  rewrite R1, R2, R3, R3', R4, R5, R6. reflexivity.
Qed.

Lemma parseFunc_origin (fuel : nat) : missingFromPlain (parseFunc fuel).
Proof.
  induction fuel as [|fuel IH]; [intros s n s' E; discriminate E|].
  cbn [parseFunc]. apply parseFuncBody_origin. exact IH.
Qed.

Lemma parseAny_origin (fuel : nat) : missingFromPlain (parseAny fuel).
Proof.
  induction fuel as [|fuel IH]; intros s n s' E; [discriminate E|].
  rewrite parseAny_step in E.
  destruct (scan (anyScanner s)) as [tok s1]. destruct tok;
    try discriminate E.
  - unfold joinRight in E.
    destruct (parseAny fuel s1) as [[[rn [re|]] rs]|] eqn:R;
      try discriminate E.
    + inversion E; subst. exact (IH _ _ _ R).
    + destruct (is_empty rn); discriminate E.
  - destruct (parseFunc fuel s1) as [[[ln [le|]] ls]|] eqn:F;
      try discriminate E.
    + inversion E; subst. exact (parseFunc_origin fuel _ _ _ F).
    + unfold joinRight in E.
      destruct (parseAny fuel ls) as [[[rn [re|]] rs]|] eqn:R;
        try discriminate E.
      * inversion E; subst. exact (IH _ _ _ R).
      * destruct (is_empty rn); discriminate E.
Qed.

Lemma Parse_origin (fuel : nat) (buf : string) (t : Tree) :
  Parse fuel buf = Some (t, Some ErrMissingClosingBrace) ->
  plainUnclosed (scanner t).
Proof.
  unfold Parse.
  destruct (parseAny fuel (init buf zero)) as [[[n e] s']|] eqn:E;
    [|discriminate].
  intros X; inversion X; subst. cbn [scanner].
  exact (parseAny_origin fuel _ _ _ E).
Qed.

End Origin.

(** * Facts about the scanner [Scan.scanner] *)

Section ScannerFacts.

Import Scan.

Lemma length_list_ascii_of_string (t : string) :
  length (list_ascii_of_string t) = String.length t.
Proof. induction t as [|c t IH]; simpl; [reflexivity | rewrite IH; reflexivity]. Qed.

Lemma append_empty_r (a : string) : (a ++ EmptyString)%string = a.
Proof. induction a as [|c a IH]; simpl; [reflexivity | rewrite IH; reflexivity]. Qed.

Lemma list_ascii_of_string_app (a b : string) :
  list_ascii_of_string (a ++ b) = (list_ascii_of_string a ++ list_ascii_of_string b)%list.
Proof. induction a as [|c a IH]; simpl; [reflexivity | rewrite IH; reflexivity]. Qed.

(** A run consumes at least as many runes as it adds to the token. *)
Lemma scanRun_length (md : N) (esc : list rune) (acc : option acceptFunc)
    (n : nat) :
  forall inp tx, length inp <= n ->
    length tx <= length (fst (scanRun md esc acc tx inp))
    /\ length (fst (scanRun md esc acc tx inp))
       + length (snd (scanRun md esc acc tx inp))
       <= length tx + length inp.
Proof.
  induction n as [|n IH]; intros inp tx L.
  - destruct inp; [simpl; lia | simpl in L; lia].
  - destruct inp as [|r rest]; [simpl; lia|].
    simpl in L. simpl scanRun.
    destruct (rune_eqb r eof || opensSubst md r rest); [simpl; lia|].
    destruct rest as [|c rest'].
    + destruct (accepted acc r (Datatypes.S (length tx))); simpl;
        [rewrite length_app; simpl; lia | lia].
    + destruct (escaped md esc r c).
      * destruct (IH rest' (tx ++ [c])%list) as [A B]; [simpl in L; lia|].
        rewrite length_app in A, B. simpl in *. lia.
      * destruct (accepted acc r (Datatypes.S (length tx))); [|simpl; lia].
        destruct (IH (c :: rest') (tx ++ [r])%list) as [A B]; [simpl in *; lia|].
        rewrite length_app in A, B. simpl in *. lia.
Qed.

Lemma scan_remaining (s : scanner) (tok : token) (s' : scanner) :
  Scan.scan s = (tok, s') ->
  remaining s' <= remaining s
  /\ (tok = tokenIdent \/ tok = tokenLbrack \/ tok = tokenRbrack ->
      remaining s' < remaining s).
Proof.
  unfold Scan.scan, remaining.
  destruct (input s) as [|r rest] eqn:I.
  { intros E; inversion E; subst. simpl. rewrite I. simpl.
    split; [lia | intros [D|[D|D]]; discriminate D]. }
  destruct (rune_eqb r eof).
  { intros E; inversion E; subst. simpl.
    split; [lia | intros [D|[D|D]]; discriminate D]. }
  destruct (opensSubst (mode s) r rest) eqn:O.
  { intros E; inversion E; subst. simpl.
    unfold opensSubst in O. destruct rest as [|c rest']; simpl.
    - rewrite andb_false_r in O. discriminate O.
    - split; intros; lia. }
  destruct (has (mode s) scanRbrack && rune_eqb r "}").
  { intros E; inversion E; subst. simpl. split; intros; lia. }
  destruct (has (mode s) scanIdent).
  - pose proof (scanRun_length (mode s) (escapeChars s) (accept s)
                  (length (r :: rest)) (r :: rest) [] (Nat.le_refl _)) as [A B].
    destruct (scanRun (mode s) (escapeChars s) (accept s) [] (r :: rest))
      as [tx rest2].
    simpl in A, B. destruct tx as [|c tx].
    + intros E; inversion E; subst. simpl. rewrite I. simpl.
      split; [lia | intros [D|[D|D]]; discriminate D].
    + intros E; inversion E; subst. simpl in *. split; intros; lia.
  - intros E; inversion E; subst. simpl. rewrite I. simpl.
    split; [lia | intros [D|[D|D]]; discriminate D].
Qed.

Lemma unread_read_remaining (s : scanner) :
  remaining (Scan.unread (snd (Scan.read s))) <= remaining s.
Proof.
  unfold Scan.read, Scan.unread, remaining.
  destruct (input s) as [|r rest] eqn:I; simpl; rewrite ?I; simpl; lia.
Qed.

Lemma parseAny_returns (fuel : nat) (s : scanner) :
  remaining s < fuel ->
  exists n e s', parseAny fuel s = Some (n, e, s').
Proof.
  intros L.
  destruct (@parseAny_total scanner Scan.ops remaining
              (fun _ s0 => eq_refl (remaining s0))
              (fun _ s0 => eq_refl (remaining s0))
              (fun _ s0 => eq_refl (remaining s0))
              (fun s tok s' E => proj1 (scan_remaining s tok s' E))
              (fun s tok s' E => proj2 (scan_remaining s tok s' E))
              unread_read_remaining fuel s L) as (n & e & s' & E & _).
  exists n, e, s'. exact E.
Qed.

End ScannerFacts.

(** C10.  Parse returns on every input: there are a tree and an error value
    (possibly nil) that Parse yields with every budget larger than the
    length of the input; no input uses up such a budget. *)
Theorem Parse_terminates (buf : string) :
  exists t e, forall fuel,
      String.length buf < fuel -> ParseString fuel buf = Some (t, e).
Proof.
  destruct (parseAny_returns (Datatypes.S (String.length buf))
              (Scan.init buf Scan.zero)) as (n & e & s' & E).
  { unfold Scan.remaining. simpl. rewrite length_list_ascii_of_string. lia. }
  exists (mkTree n s'), e. intros fuel L.
  apply (Parse_extends (Datatypes.S (String.length buf)) fuel); [lia|].
  unfold Parse.
  change (@init _ Scan.ops buf (@zero _ Scan.ops)) with (Scan.init buf Scan.zero).
  rewrite E. reflexivity.
Qed.

(** C3.  ["${VAR"] fails with ErrMissingClosingBrace and ["${}"] fails with
    ErrParseVariableName, on every budget of two steps or more. *)
Theorem Parse_malformed_examples (k : nat) :
  outcome (2 + k) "${VAR" = Some (nil_node, Some ErrMissingClosingBrace)
  /\ outcome (2 + k) "${}" = Some (nil_node, Some ErrParseVariableName).
Proof. split; vm_compute; reflexivity. Qed.

(** * Lookahead, literal text and unclosed substitutions *)

Section InputFacts.

Lemma isDefaultOp_false (r : rune) :
  r <> "=" -> r <> "-" -> r <> "?" -> r <> "+" -> isDefaultOp r = false.
Proof.
  intros A B C D. unfold isDefaultOp, rune_eqb.
  rewrite !(proj2 (Ascii.eqb_neq _ _)) by assumption. reflexivity.
Qed.

(** parseDefaultOrSubstr with any scanner: the rune it decides on is the
    one peek returns after one read, and the scanner it hands on is the one
    unread returns after that. *)
Lemma parseDefaultOrSubstr_decides {S : Type} `{Scanner S} (pf : production)
    (fuel : nat) (name : string) (s : S) :
  (peek (snd (read s)) = "=" \/ peek (snd (read s)) = "-"
   \/ peek (snd (read s)) = "?" \/ peek (snd (read s)) = "+" ->
   parseDefaultOrSubstr pf fuel name s
   = parseDefaultFunc pf fuel name (unread (snd (read s))))
  /\ (peek (snd (read s)) <> "=" -> peek (snd (read s)) <> "-" ->
      peek (snd (read s)) <> "?" -> peek (snd (read s)) <> "+" ->
      parseDefaultOrSubstr pf fuel name s
      = parseSubstrFunc pf name (unread (snd (read s)))).
Proof.
  unfold parseDefaultOrSubstr. destruct (read s) as [x s0]. cbn [snd].
  split.
  - intros [E | [E | [E | E]]]; rewrite E; reflexivity.
  - intros A B C D. rewrite (isDefaultOp_false _ A B C D). reflexivity.
Qed.

Lemma lookahead_restores (s : Scan.scanner) (r : rune) (rest : list rune) :
  Scan.input s = ":" :: r :: rest ->
  Scan.peek (snd (Scan.read s)) = r
  /\ Scan.input (snd (Scan.read s)) = r :: rest
  /\ Scan.input (Scan.unread (snd (Scan.read s))) = ":" :: r :: rest
  /\ Scan.unread (snd (Scan.read s)) = Scan.with_last None s.
Proof.
  intros I. destruct s as [i t l m e a]. simpl in I. subst i.
  repeat split; reflexivity.
Qed.

(** C4.  parseDefaultOrSubstr decides by one rune of lookahead.  With every
    scanner it reads one rune, takes the rune that peek then returns, and
    calls unread; when that rune is [=], [-], [?] or [+] it continues with
    parseDefaultFunc, and on every other rune with parseSubstrFunc, in both
    cases on the scanner that unread returned.  With the scanner
    [Scan.scanner] standing on [:] and a rune [r] after it, the rune looked
    at is [r], whatever comes behind it, and the scanner handed on has the
    [:] and [r] unread again: it is the scanner that was given, but for the
    note of the last read. *)
Theorem parseDefaultOrSubstr_lookahead :
  (forall (S : Type) (ops : Scanner S) (pf : production) (fuel : nat)
          (name : string) (s : S),
      (peek (snd (read s)) = "=" \/ peek (snd (read s)) = "-"
       \/ peek (snd (read s)) = "?" \/ peek (snd (read s)) = "+" ->
       parseDefaultOrSubstr pf fuel name s
       = parseDefaultFunc pf fuel name (unread (snd (read s))))
      /\ (peek (snd (read s)) <> "=" -> peek (snd (read s)) <> "-" ->
          peek (snd (read s)) <> "?" -> peek (snd (read s)) <> "+" ->
          parseDefaultOrSubstr pf fuel name s
          = parseSubstrFunc pf name (unread (snd (read s)))))
  /\ (forall (pf : production) (fuel : nat) (name : string)
             (s : Scan.scanner) (r : rune) (rest : list rune),
        Scan.input s = ":" :: r :: rest ->
        Scan.peek (snd (Scan.read s)) = r
        /\ Scan.input (snd (Scan.read s)) = r :: rest
        /\ Scan.input (Scan.unread (snd (Scan.read s))) = ":" :: r :: rest
        /\ Scan.unread (snd (Scan.read s)) = Scan.with_last None s
        /\ (r = "=" \/ r = "-" \/ r = "?" \/ r = "+" ->
            parseDefaultOrSubstr pf fuel name s
            = parseDefaultFunc pf fuel name (Scan.with_last None s))
        /\ (r <> "=" -> r <> "-" -> r <> "?" -> r <> "+" ->
            parseDefaultOrSubstr pf fuel name s
            = parseSubstrFunc pf name (Scan.with_last None s))).
Proof.
  split.
  - intros S ops pf fuel name s. apply parseDefaultOrSubstr_decides.
  - intros pf fuel name s r rest I.
    destruct (lookahead_restores s r rest I) as (P & R & U & W).
    destruct (parseDefaultOrSubstr_decides pf fuel name s) as [D O].
    change (@peek _ Scan.ops (snd (@read _ Scan.ops s)))
      with (Scan.peek (snd (Scan.read s))) in D, O.
    change (@unread _ Scan.ops (snd (@read _ Scan.ops s)))
      with (Scan.unread (snd (Scan.read s))) in D, O.
    rewrite P in D, O. rewrite W in D, O.
    repeat split; assumption.
Qed.

Lemma has_anyMode_Rbrack : Scan.has anyMode scanRbrack = false.
Proof. reflexivity. Qed.

Lemma literalRune_runes (r : rune) :
  literalRune r = true ->
  rune_eqb r "$" = false /\ rune_eqb r "\" = false
  /\ rune_eqb r Scan.eof = false.
Proof.
  unfold literalRune. intros L.
  apply andb_prop in L. destruct L as [L E].
  apply andb_prop in L. destruct L as [D B].
  apply negb_true_iff in D. apply negb_true_iff in B.
  apply negb_true_iff in E. auto.
Qed.

Lemma verbatimRunes_cons (r : rune) (rest : list rune) :
  verbatimRunes (r :: rest) = true ->
  rune_eqb r Scan.eof = false
  /\ Scan.opensSubst anyMode r rest = false
  /\ (forall c rest', rest = c :: rest' ->
        Scan.escaped anyMode dollar r c = false)
  /\ verbatimRunes rest = true.
Proof.
  cbn [verbatimRunes]. intros V.
  apply andb_prop in V. destruct V as [V R].
  apply andb_prop in V. destruct V as [V B].
  apply andb_prop in V. destruct V as [E O].
  apply negb_true_iff in E. apply negb_true_iff in O.
  apply negb_true_iff in B.
  repeat split; auto.
  intros c rest' ->. unfold Scan.escaped, dollar. cbn [existsb].
  rewrite orb_false_r. exact B.
Qed.

(** A run of such text in the mode of parseAny takes all of it. *)
Lemma scanRun_verbatim (inp : list rune) :
  verbatimRunes inp = true ->
  forall tx, Scan.scanRun anyMode dollar (Some acceptRune) tx inp
             = ((tx ++ inp)%list, []).
Proof.
  induction inp as [|r rest IH]; intros V tx.
  - simpl. rewrite app_nil_r. reflexivity.
  - destruct (verbatimRunes_cons r rest V) as (E & O & B & R).
    cbn [Scan.scanRun]. rewrite E, O. cbn [orb].
    specialize (IH R (tx ++ [r])%list).
    rewrite <- app_assoc in IH. cbn [app] in IH.
    destruct rest as [|c rest'].
    + exact IH.
    + rewrite (B c rest' eq_refl). exact IH.
Qed.

Lemma scan_verbatim (tx : list rune) (l : option rune) (r : rune)
    (rest : list rune) :
  verbatimRunes (r :: rest) = true ->
  Scan.scan (Scan.mkScanner (r :: rest) tx l anyMode dollar (Some acceptRune))
  = (tokenIdent, Scan.mkScanner [] (r :: rest) l anyMode dollar (Some acceptRune)).
Proof.
  intros V. pose proof (scanRun_verbatim (r :: rest) V []) as R.
  destruct (verbatimRunes_cons r rest V) as (E & O & _ & _).
  unfold Scan.scan. cbn [Scan.input Scan.mode Scan.escapeChars Scan.accept].
  rewrite E, O, has_anyMode_Rbrack. cbn [andb].
  change (Scan.has anyMode scanIdent) with true. cbv iota.
  rewrite R. reflexivity.
Qed.

Lemma parseAny_verbatim (fuel : nat) (s : Scan.scanner) :
  verbatimRunes (Scan.input s) = true ->
  exists s',
    parseAny (2 + fuel) s
    = Some (match Scan.input s with
            | [] => empty
            | _ => TextNode (string_of_list_ascii (Scan.input s))
            end, None, s').
Proof.
  intros L. destruct s as [i t l m e a]. cbn [Scan.input] in *.
  change (2 + fuel) with (Datatypes.S (Datatypes.S fuel)).
  rewrite parseAny_step.
  change (scan (anyScanner (Scan.mkScanner i t l m e a)))
    with (Scan.scan (Scan.mkScanner i t l anyMode dollar (Some acceptRune))).
  destruct i as [|r rest].
  - eexists. reflexivity.
  - rewrite (scan_verbatim t l r rest L). eexists. reflexivity.
Qed.

(** The delimiter tokens of the substring and replace productions, in runes:
    with the scanner [Scan.scanner] the token after the offset is the
    closing-brace token exactly on [}] and the delimiter token exactly on
    [:], and the delimiter token after the pattern is scanned on [/]. *)
Lemma scan_first_rune (s s' : Scan.scanner) :
  Scan.has (Scan.mode s) scanLbrack = false ->
  Scan.has (Scan.mode s) scanEscape = false ->
  Scan.scan s = (tokenIdent, s') ->
  exists r rest, Scan.input s = r :: rest
                 /\ Scan.accepted (Scan.accept s) r 1 = true.
Proof.
  intros NoL NoE. unfold Scan.scan.
  destruct (Scan.input s) as [|r rest]; [discriminate|].
  destruct (rune_eqb r Scan.eof) eqn:Z; [discriminate|].
  unfold Scan.opensSubst. rewrite NoL. cbn [andb].
  destruct (Scan.has (Scan.mode s) scanRbrack && rune_eqb r "}");
    [discriminate|].
  destruct (Scan.has (Scan.mode s) scanIdent); [|discriminate].
  cbn [Scan.scanRun]. unfold Scan.opensSubst, Scan.escaped.
  rewrite Z, NoL, NoE. cbn [andb orb length].
  destruct (Scan.accepted (Scan.accept s) r 1) eqn:A.
  - intros _. exists r, rest. split; [reflexivity | exact A].
  - destruct rest; discriminate.
Qed.

Lemma delimiter_or_close_runes (s : Scan.scanner) (tok : token)
    (s' : Scan.scanner) :
  Scan.scan (Scan.with_mode (N.lor scanIdent scanRbrack)
               (Scan.with_accept acceptColon s)) = (tok, s') ->
  (tok = tokenRbrack -> exists rest, Scan.input s = "}" :: rest)
  /\ (tok = tokenIdent -> exists rest, Scan.input s = ":" :: rest).
Proof.
  intros E. split; intros ->.
  - unfold Scan.scan in E. cbn [Scan.input Scan.mode Scan.with_mode
      Scan.with_accept Scan.escapeChars Scan.accept] in E.
    destruct (Scan.input s) as [|r rest]; [discriminate E|].
    destruct (rune_eqb r Scan.eof); [discriminate E|].
    unfold Scan.opensSubst in E.
    change (Scan.has (N.lor scanIdent scanRbrack) scanLbrack) with false in E.
    change (Scan.has (N.lor scanIdent scanRbrack) scanRbrack) with true in E.
    change (Scan.has (N.lor scanIdent scanRbrack) scanIdent) with true in E.
    cbn [andb] in E.
    destruct (rune_eqb r "}") eqn:R.
    + apply Ascii.eqb_eq in R. subst r. eauto.
    + destruct (Scan.scanRun _ _ _ _ _) as [[|c tx] rest2]; discriminate E.
  - apply scan_first_rune in E; try reflexivity.
    destruct E as (r & rest & I & A).
    cbn [Scan.input Scan.with_mode Scan.with_accept Scan.accept] in I, A.
    cbn in A. apply Ascii.eqb_eq in A. subst r. eauto.
Qed.












End InputFacts.



(** C8, as amended.  A template that holds no zero rune, no [$] directly
    followed by [{] and no backslash directly followed by [$] parses, and
    executing its tree gives back the template, with every resolver and
    operator table.  A lone dollar sign and a lone backslash are text. *)
Theorem literal_roundtrip (resolve : string -> option string)
    (operator : string -> option string -> list string -> option string)
    (t : string) (fuel : nat) :
  verbatim t = true ->
  exists tree,
    ParseString (2 + fuel) t = Some (tree, None)
    /\ Execute resolve operator (Root tree) = Some t.
Proof.
  intros L. unfold ParseString, Parse.
  destruct (parseAny_verbatim fuel (Scan.init t Scan.zero) L) as [s' E].
  change (@init _ Scan.ops t (@zero _ Scan.ops)) with (Scan.init t Scan.zero).
  rewrite E. eexists. split; [reflexivity|]. simpl.
  destruct t as [|c t]; simpl; [reflexivity|].
  rewrite string_of_list_ascii_of_string. reflexivity.
Qed.

(** * Substitutions that are never closed *)

Section Unclosed.

Lemma parseFuncBody_split {S : Type} `{Scanner S} (pf : production)
    (fuel : nat) (s : S) :
  parseFuncBody pf fuel s =
  if rune_eqb (peek (set_escapeChars escapeAll s)) "#"
  then parseLenFunc (set_escapeChars escapeAll s)
  else
    let '(tok, s1) :=
      scan (set_mode scanIdent
              (set_accept acceptIdent (set_escapeChars escapeAll s))) in
    match tok with
    | tokenIdent => afterName pf fuel (string_ s1) s1
    | _ => Some (nil_node, Some ErrParseVariableName, s1)
    end.
Proof. reflexivity. Qed.

Lemma identRune_runes (c : rune) :
  identRune c = true ->
  rune_eqb c "#" = false /\ rune_eqb c Scan.eof = false.
Proof.
  destruct c as [b0 b1 b2 b3 b4 b5 b6 b7].
  destruct b0, b1, b2, b3, b4, b5, b6, b7; vm_compute;
    (discriminate || (intros _; split; reflexivity)).
Qed.

Lemma scanRun_stop (esc : list rune) (acc : option acceptFunc)
    (tx : list rune) (r : rune) (rest : list rune) :
  Scan.accepted acc r (Datatypes.S (length tx)) = false ->
  Scan.scanRun scanIdent esc acc tx (r :: rest) = (tx, r :: rest).
Proof.
  intros A. simpl. rewrite A.
  destruct (rune_eqb r Scan.eof); destruct rest; reflexivity.
Qed.

Lemma scanRun_take (esc : list rune) (acc : option acceptFunc)
    (tx : list rune) (r : rune) (rest : list rune) :
  rune_eqb r Scan.eof = false ->
  Scan.accepted acc r (Datatypes.S (length tx)) = true ->
  Scan.scanRun scanIdent esc acc tx (r :: rest)
  = Scan.scanRun scanIdent esc acc (tx ++ [r])%list rest.
Proof.
  intros Z A. simpl. rewrite Z, A. destruct rest; reflexivity.
Qed.

(** A run of name runes under acceptIdent takes the name and stops. *)
Lemma scanRun_ident (esc : list rune) (name rest : list rune) :
  forallb identRune name = true -> identStop rest = true ->
  forall tx, Scan.scanRun scanIdent esc (Some acceptIdent) tx (name ++ rest)
             = ((tx ++ name)%list, rest).
Proof.
  intros N St. induction name as [|c name IH]; intros tx.
  - rewrite app_nil_r. simpl app. destruct rest as [|r rest]; [reflexivity|].
    apply scanRun_stop. simpl in St. apply negb_true_iff in St. exact St.
  - simpl in N. apply andb_prop in N. destruct N as [C N].
    destruct (identRune_runes c C) as [_ Z].
    simpl app. rewrite scanRun_take; [|exact Z|exact C].
    rewrite (IH N). rewrite <- app_assoc. reflexivity.
Qed.

Lemma scan_identifier (name rest tx : list rune) (l : option rune)
    (esc : list rune) :
  forallb identRune name = true -> name <> [] -> identStop rest = true ->
  Scan.scan (Scan.mkScanner (name ++ rest) tx l scanIdent esc (Some acceptIdent))
  = (tokenIdent, Scan.mkScanner rest name l scanIdent esc (Some acceptIdent)).
Proof.
  intros N NE St. pose proof (scanRun_ident esc name rest N St []) as R.
  destruct name as [|c name]; [congruence|].
  simpl in N. apply andb_prop in N. destruct N as [C _].
  destruct (identRune_runes c C) as [_ Z].
  unfold Scan.scan. cbn [Scan.input Scan.mode Scan.escapeChars Scan.accept].
  rewrite <- app_comm_cons in *. cbv iota. rewrite Z.
  cbn [Scan.opensSubst Scan.has]. simpl andb.
  cbv iota. rewrite R. reflexivity.
Qed.

(** The scan of the operator of [${#NAME]. *)
Lemma scan_hash (name tx : list rune) (l : option rune) (esc : list rune) :
  forallb identRune name = true ->
  Scan.scan (Scan.mkScanner ("#" :: name) tx l scanIdent esc (Some acceptOneHash))
  = (tokenIdent, Scan.mkScanner name ["#"] l scanIdent esc (Some acceptOneHash)).
Proof.
  intros N. unfold Scan.scan.
  cbn [Scan.input Scan.mode Scan.escapeChars Scan.accept].
  change (rune_eqb "#" Scan.eof) with false. cbv iota.
  cbn [Scan.opensSubst Scan.has]. simpl andb. cbv iota.
  rewrite scanRun_take; [|reflexivity|reflexivity].
  destruct name as [|c name]; [reflexivity|].
  rewrite scanRun_stop; [reflexivity|].
  simpl. rewrite andb_false_r. reflexivity.
Qed.

Lemma identifier_runes (name : string) :
  identifier name = true ->
  forallb identRune (list_ascii_of_string name) = true
  /\ list_ascii_of_string name <> []
  /\ exists c tl, list_ascii_of_string name = c :: tl /\ identRune c = true.
Proof.
  unfold identifier. intros I. apply andb_prop in I. destruct I as [NE N].
  destruct name as [|c name]; [discriminate NE|].
  simpl in *. repeat split; [exact N | discriminate|].
  apply andb_prop in N. destruct N as [C _]. eauto.
Qed.

(** parseFunc on a name followed by [rest]: the name is scanned and the
    operator is looked for in [rest]. *)
Lemma parseFuncBody_named (pf : production) (fuel : nat)
    (name : string) (rest tx : list rune) (l : option rune) (m : N)
    (esc : list rune) (acc : option acceptFunc) :
  identifier name = true -> identStop rest = true ->
  parseFuncBody pf fuel
    (Scan.mkScanner (list_ascii_of_string name ++ rest) tx l m esc acc)
  = afterName pf fuel name
      (Scan.mkScanner rest (list_ascii_of_string name) l scanIdent escapeAll
         (Some acceptIdent)).
Proof.
  intros I St. destruct (identifier_runes name I) as (N & NE & c & tl & E & C).
  rewrite parseFuncBody_split.
  change (peek (set_escapeChars escapeAll
             (Scan.mkScanner (list_ascii_of_string name ++ rest) tx l m esc acc)))
    with (hd Scan.eof (list_ascii_of_string name ++ rest)).
  rewrite E at 1. simpl hd. rewrite (proj1 (identRune_runes c C)).
  change (scan (set_mode scanIdent (set_accept acceptIdent
            (set_escapeChars escapeAll
               (Scan.mkScanner (list_ascii_of_string name ++ rest) tx l m esc acc)))))
    with (Scan.scan (Scan.mkScanner (list_ascii_of_string name ++ rest) tx l
                       scanIdent escapeAll (Some acceptIdent))).
  rewrite (scan_identifier _ _ _ _ _ N NE St).
  cbv iota beta.
  change (string_ (Scan.mkScanner rest (list_ascii_of_string name) l scanIdent
                     escapeAll (Some acceptIdent)))
    with (string_of_list_ascii (list_ascii_of_string name)).
  rewrite string_of_list_ascii_of_string. reflexivity.
Qed.

(** Parse on [${NAME] followed by [rest]. *)
Lemma parseAny_named (fuel : nat) (name rest : string) :
  identifier name = true -> identStop (list_ascii_of_string rest) = true ->
  parseAny (Datatypes.S (Datatypes.S fuel))
    (Scan.init ("${" ++ name ++ rest) Scan.zero)
  = match afterName (parseFunc fuel) fuel name
            (Scan.mkScanner (list_ascii_of_string rest)
               (list_ascii_of_string name) None scanIdent escapeAll
               (Some acceptIdent)) with
    | None => None
    | Some (_, Some err, s) => Some (nil_node, Some err, s)
    | Some (left_, None, s) =>
      joinRight left_ (parseAny (Datatypes.S fuel) s)
    end.
Proof.
  intros I St. rewrite parseAny_step.
  change (scan (anyScanner (Scan.init ("${" ++ name ++ rest) Scan.zero)))
    with (tokenLbrack,
          Scan.mkScanner (list_ascii_of_string (name ++ rest)) ["$"; "{"] None
            anyMode dollar (Some acceptRune)).
  cbv iota beta. rewrite list_ascii_of_string_app.
  change (parseFunc (Datatypes.S fuel)) with (parseFuncBody (parseFunc fuel) fuel).
  rewrite (parseFuncBody_named _ _ _ _ _ _ _ _ _ I St). reflexivity.
Qed.

(** Parse on [${#NAME] at the end of the input. *)
Lemma parseAny_length_unclosed (fuel : nat) (name : string) :
  identifier name = true ->
  exists s,
    parseAny (Datatypes.S (Datatypes.S fuel))
      (Scan.init ("${#" ++ name) Scan.zero)
    = Some (nil_node, Some ErrBadSubstitution, s).
Proof.
  intros I. destruct (identifier_runes name I) as (N & NE & _).
  rewrite parseAny_step.
  change (scan (anyScanner (Scan.init ("${#" ++ name) Scan.zero)))
    with (tokenLbrack,
          Scan.mkScanner ("#" :: list_ascii_of_string name) ["$"; "{"] None
            anyMode dollar (Some acceptRune)).
  cbv iota beta.
  change (parseFunc (Datatypes.S fuel)) with (parseFuncBody (parseFunc fuel) fuel).
  rewrite parseFuncBody_split.
  change (peek (set_escapeChars escapeAll
            (Scan.mkScanner ("#" :: list_ascii_of_string name) ["$"; "{"] None
               anyMode dollar (Some acceptRune)))) with "#".
  change (rune_eqb "#" "#") with true. cbv iota.
  unfold parseLenFunc.
  change (scan (set_mode scanIdent (set_accept acceptOneHash
            (set_escapeChars escapeAll
               (Scan.mkScanner ("#" :: list_ascii_of_string name) ["$"; "{"]
                  None anyMode dollar (Some acceptRune))))))
    with (Scan.scan (Scan.mkScanner ("#" :: list_ascii_of_string name)
                       ["$"; "{"] None scanIdent escapeAll (Some acceptOneHash))).
  rewrite (scan_hash _ _ _ _ N). cbv iota beta.
  change (scan (set_mode scanIdent (set_accept acceptIdent
            (Scan.mkScanner (list_ascii_of_string name) ["#"] None scanIdent
               escapeAll (Some acceptOneHash)))))
    with (Scan.scan (Scan.mkScanner (list_ascii_of_string name) ["#"] None
                       scanIdent escapeAll (Some acceptIdent))).
  pose proof (scan_identifier (list_ascii_of_string name) [] ["#"] None
                escapeAll N NE eq_refl) as Sc.
  rewrite app_nil_r in Sc. rewrite Sc. cbv iota beta.
  eexists. reflexivity.
Qed.

End Unclosed.

(** Unclosed forms at the start of the input, for every variable name
    NAME: the plain form [${NAME] fails with ErrMissingClosingBrace; the
    operator forms [${#NAME], [${NAME^^], [${NAME#w], [${NAME/p/r],
    [${NAME:1] and [${NAME:1:2] fail with ErrBadSubstitution, and
    [${NAME:-w] fails with ErrParseFuncSubstitution. *)
Lemma unclosed_samples (name : string) (k : nat) :
  identifier name = true ->
  outcome (4 + k) ("${" ++ name) = Some (nil_node, Some ErrMissingClosingBrace)
  /\ outcome (4 + k) ("${#" ++ name)
     = Some (nil_node, Some ErrBadSubstitution)
  /\ outcome (4 + k) ("${" ++ name ++ "^^")
     = Some (nil_node, Some ErrBadSubstitution)
  /\ outcome (4 + k) ("${" ++ name ++ "#w")
     = Some (nil_node, Some ErrBadSubstitution)
  /\ outcome (4 + k) ("${" ++ name ++ "/p/r")
     = Some (nil_node, Some ErrBadSubstitution)
  /\ outcome (4 + k) ("${" ++ name ++ ":1")
     = Some (nil_node, Some ErrBadSubstitution)
  /\ outcome (4 + k) ("${" ++ name ++ ":1:2")
     = Some (nil_node, Some ErrBadSubstitution)
  /\ outcome (4 + k) ("${" ++ name ++ ":-w")
     = Some (nil_node, Some ErrParseFuncSubstitution).
Proof.
  intros I.
  assert (forall rest e,
             identStop (list_ascii_of_string rest) = true ->
             (forall pf,
                 match afterName pf (2 + k) name
                         (Scan.mkScanner (list_ascii_of_string rest)
                            (list_ascii_of_string name) None scanIdent
                            escapeAll (Some acceptIdent)) with
                 | Some (_, Some err, _) => err = e
                 | _ => False
                 end) ->
             outcome (4 + k) ("${" ++ name ++ rest) = Some (nil_node, Some e))
    as Named.
  { intros rest e St A. unfold outcome, ParseString, Parse.
    change (@init _ Scan.ops ("${" ++ name ++ rest) (@zero _ Scan.ops))
      with (Scan.init ("${" ++ name ++ rest) Scan.zero).
    change (4 + k) with (Datatypes.S (Datatypes.S (2 + k))).
    rewrite (parseAny_named _ _ _ I St).
    specialize (A (parseFunc (2 + k))).
    destruct (afterName _ _ _ _) as [[[n [err|]] s1]|]; try contradiction.
    subst err. reflexivity. }
  split.
  { pose proof (Named EmptyString ErrMissingClosingBrace eq_refl) as P.
    rewrite append_empty_r in P. apply P. intros pf. vm_compute. reflexivity. }
  split.
  { unfold outcome, ParseString, Parse.
    change (@init _ Scan.ops ("${#" ++ name) (@zero _ Scan.ops))
      with (Scan.init ("${#" ++ name) Scan.zero).
    change (4 + k) with (Datatypes.S (Datatypes.S (2 + k))).
    destruct (parseAny_length_unclosed (2 + k) name I) as [s E].
    rewrite E. reflexivity. }
  repeat split; apply Named; try reflexivity; intros pf; vm_compute; reflexivity.
Qed.

(** * The statements on inputs, and inputs on which they fail *)

Lemma Parse_error_no_tree_witness :
  exists t e, ParseString 6 "${VAR" = Some (t, Some e) /\ Root t = nil_node.
Proof.
  eexists; eexists. split; [vm_compute; reflexivity|].
  eapply (Parse_error_no_tree 6 "${VAR"). vm_compute. reflexivity.
Defined.

(** The unclosed casing form [${VAR^^] does not fail with
    ErrMissingClosingBrace, whatever the budget. *)
Lemma unclosed_casing_counterexample :
  ~ (forall t, unclosed t = true ->
       exists fuel tree,
         ParseString fuel t = Some (tree, Some ErrMissingClosingBrace)).
Proof.
  intros C. destruct (C "${VAR^^"%string eq_refl) as (fuel & tree & E).
  destruct fuel as [|[|fuel]]; vm_compute in E; discriminate E.
Qed.

Lemma parseDefaultOrSubstr_lookahead_witness :
  Scan.input (afterVar ":?x}") = list_ascii_of_string ":?x}"
  /\ Scan.input (Scan.unread (snd (Scan.read (afterVar ":?x}"))))
     = list_ascii_of_string ":?x}"
  /\ parseDefaultOrSubstr (parseFunc 1) 3 "VAR" (afterVar ":?x}")
     = parseDefaultFunc (parseFunc 1) 3 "VAR"
         (Scan.with_last None (afterVar ":?x}"))
  /\ parseDefaultOrSubstr (parseFunc 1) 3 "VAR" (afterVar ":1}")
     = parseSubstrFunc (parseFunc 1) "VAR"
         (Scan.with_last None (afterVar ":1}")).
Proof.
  split; [reflexivity|].
  pose proof (proj2 parseDefaultOrSubstr_lookahead (parseFunc 1) 3 "VAR"%string
                (afterVar ":?x}") "?" (list_ascii_of_string "x}") eq_refl)
    as (_ & _ & U & _ & D & _).
  pose proof (proj2 parseDefaultOrSubstr_lookahead (parseFunc 1) 3 "VAR"%string
                (afterVar ":1}") "1" (list_ascii_of_string "}") eq_refl)
    as (_ & _ & _ & _ & _ & O).
  split; [exact U|]. split.
  - apply D. right. right. left. reflexivity.
  - apply O; discriminate.
Defined.

Lemma parseSubstrFunc_arguments_witness :
  parseSubstrFunc (parseFunc 1) "VAR" (afterVar ":1:3}")
  = Some (FuncNode "VAR" ":" [TextNode "1"; TextNode "3"], None,
          atEnd scanRbrack acceptNotClosing)
  /\ exists s1 off s2 tok s3,
    scan (set_mode scanIdent (set_accept acceptOneColon (afterVar ":1:3}")))
    = (tokenIdent, s1)
    /\ parseParam (parseFunc 1) rejectColonClose scanIdent s1
       = Some (off, None, s2)
    /\ scan (set_mode (N.lor scanIdent scanRbrack) (set_accept acceptColon s2))
       = (tok, s3)
    /\ ((tok = tokenRbrack
         /\ FuncNode "VAR" ":" [TextNode "1"; TextNode "3"]
            = FuncNode "VAR" (string_ s1) [off]
         /\ atEnd scanRbrack acceptNotClosing = s3)
        \/ (tok = tokenIdent
            /\ exists len s4,
                parseParam (parseFunc 1) acceptNotClosing scanIdent s3
                = Some (len, None, s4)
                /\ FuncNode "VAR" ":" [TextNode "1"; TextNode "3"]
                   = FuncNode "VAR" (string_ s1) [off; len]
                /\ consumeRbrack s4
                   = (None, atEnd scanRbrack acceptNotClosing))).
Proof.
  split; [vm_compute; reflexivity|].
  apply (parseSubstrFunc_arguments (parseFunc 1) "VAR" (afterVar ":1:3}")).
  vm_compute. reflexivity.
Defined.


Lemma Parse_list_nodes_witness :
  (exists t, ParseString 3 "a${B}" = Some (t, None)
             /\ no_empty_child (Root t) = true)
  /\ (exists s2, parseAny 2 (Scan.init "ab" Scan.zero)
                 = Some (TextNode "ab", None, s2))
  /\ (exists s3, parseAny 2 (Scan.init "${B}" Scan.zero)
                 = Some (FuncNode "B" EmptyString [], None, s3)).
Proof.
  destruct (Parse_list_nodes (S := Scan.scanner)) as (Inv & Text & Func).
  split; [|split].
  - eexists. split; [vm_compute; reflexivity|].
    eapply (Inv 3 "a${B}"%string). vm_compute. reflexivity.
  - eexists.
    apply (Text 1 (Scan.init "ab" Scan.zero)
             (Scan.mkScanner [] (list_ascii_of_string "ab") None anyMode
                dollar (Some acceptRune)));
      vm_compute; reflexivity.
  - eexists.
    eapply (Func 1 (Scan.init "${B}" Scan.zero)
              (Scan.mkScanner (list_ascii_of_string "B}")
                 (list_ascii_of_string "${") None anyMode dollar
                 (Some acceptRune)));
      vm_compute; reflexivity.
Defined.

(** The text [\$$] holds no [${], and the pipeline does not give it back:
    the scanner resolves the escape in it and the tree holds a shorter
    text. *)
Lemma escaped_dollar_counterexample :
  ~ (forall (resolve : string -> option string)
            (operator : string -> option string -> list string -> option string)
            (t : string),
        hasSubstitution t = false ->
        exists fuel tree,
          ParseString fuel t = Some (tree, None)
          /\ Execute resolve operator (Root tree) = Some t).
Proof.
  intros C.
  destruct (C (fun _ => None) (fun _ _ _ => None) "\$$"%string eq_refl)
    as (fuel & tree & P & E).
  destruct fuel as [|[|fuel]]; vm_compute in P; try discriminate P.
  inversion P; subst tree. vm_compute in E. discriminate E.
Qed.

Lemma literal_roundtrip_witness :
  verbatim "5$ and $ x$ in C:\dir\" = true
  /\ exists tree,
      ParseString 2 "5$ and $ x$ in C:\dir\" = Some (tree, None)
      /\ Execute (fun _ => None) (fun _ _ _ => None) (Root tree)
         = Some "5$ and $ x$ in C:\dir\"%string.
Proof.
  split; [reflexivity|].
  exact (literal_roundtrip (fun _ => None) (fun _ _ _ => None)
           "5$ and $ x$ in C:\dir\"%string 0 eq_refl).
Defined.

(** In [${A:-${B:-] the parseParam call of the outer default word scans the
    open-brace token and fails with ErrParseFuncSubstitution, the error of
    the nested substitution. *)
Lemma nested_error_counterexample :
  ~ (forall (pf : production) (a : acceptFunc) (m : N) (s : Scan.scanner)
            (n : Node) (s' : Scan.scanner),
        parseParam pf a m s = Some (n, Some ErrParseFuncSubstitution, s') ->
        let tok := fst (scan (set_mode (N.lor m scanLbrack) (set_accept a s))) in
        tok <> tokenLbrack /\ tok <> tokenIdent /\ tok <> tokenRbrack).
Proof.
  intros C.
  destruct (C (parseFunc 3) acceptNotClosing scanIdent (inDefaultWord "${B:-")
              nil_node
              (Scan.mkScanner [] [] None (N.lor scanIdent scanLbrack) escapeAll
                 (Some acceptNotClosing)))
    as (L & _); [vm_compute; reflexivity|].
  apply L. vm_compute. reflexivity.
Qed.

Lemma parseParam_outcomes_witness :
  parseParam (parseFunc 3) acceptNotClosing (N.lor scanIdent scanRbrack)
    (afterVar "}")
  = Some (TextNode "}", None,
          atEnd (N.lor (N.lor scanIdent scanRbrack) scanLbrack) acceptNotClosing)
  /\ parseParam (parseFunc 3) acceptNotClosing scanIdent (afterVar EmptyString)
     = Some (nil_node, Some ErrParseFuncSubstitution,
             Scan.mkScanner [] [] None (N.lor scanIdent scanLbrack) escapeAll
               (Some acceptNotClosing))
  /\ ((tokenLbrack <> tokenLbrack /\ tokenLbrack <> tokenIdent
       /\ tokenLbrack <> tokenRbrack)
      \/ (tokenLbrack = tokenLbrack
          /\ parseFunc 3
               (Scan.mkScanner (list_ascii_of_string "B:-")
                  (list_ascii_of_string "${") None
                  (N.lor scanIdent scanLbrack) escapeAll
                  (Some acceptNotClosing))
             = Some (nil_node, Some ErrParseFuncSubstitution,
                     Scan.mkScanner [] [] None (N.lor scanIdent scanLbrack)
                       escapeAll (Some acceptNotClosing)))).
Proof.
  split; [|split].
  - pose proof (parseParam_outcomes (parseFunc 3) acceptNotClosing
                  (N.lor scanIdent scanRbrack) (afterVar "}")) as T.
    vm_compute in T. destruct T as (T & _ & _).
    vm_compute. apply T. left. reflexivity.
  - pose proof (parseParam_outcomes (parseFunc 3) acceptNotClosing scanIdent
                  (afterVar EmptyString)) as T.
    vm_compute in T. destruct T as (_ & T & _).
    vm_compute. apply T. repeat split; discriminate.
  - pose proof (parseParam_outcomes (parseFunc 3) acceptNotClosing scanIdent
                  (inDefaultWord "${B:-")) as T.
    vm_compute in T. destruct T as (_ & _ & T).
    vm_compute. apply T. reflexivity.
Defined.

Lemma Parse_terminates_witness :
  exists t e, ParseString 10 "a${B:-c}" = Some (t, e).
Proof.
  destruct (Parse_terminates "a${B:-c}") as (t & e & P).
  exists t, e. apply P. simpl. lia.
Defined.

(** * The shape of the trees and of the Func nodes *)

Section TreeShape.

Context {S : Type} `{Scanner S}.

Variable P : string -> bool.

Hypothesis ident_text :
  forall s s', scan s = (tokenIdent, s') -> P (string_ s') = true.

Ltac unfold_all E :=
  repeat (match type of E with
          | context [match ?x with _ => _ end] => destruct x eqn:?
          end; cbv beta iota in E; try discriminate E).

Lemma parseParam_arg (pf : production) (a : acceptFunc) (m : N)
    (s : S) (n : Node) (s' : S) :
  shaped_production P pf ->
  parseParam pf a m s = Some (n, None, s') -> argNode P n = true.
Proof.
  intros OK E. unfold parseParam in E.
  destruct (scan _) as [tok s1]. destruct tok; try discriminate E.
  - inversion E; reflexivity.
  - eapply OK; exact E.
  - inversion E; reflexivity.
Qed.

Ltac build E OK N :=
  unfold_all E;
  repeat match goal with
         | A : parseParam _ _ _ _ = Some (_, None, _) |- _ =>
           apply (parseParam_arg _ _ _ _ _ _ OK) in A
         end;
  try (apply closing_inv in E; destruct E as [-> _]);
  try (inversion E; subst; clear E);
  simpl; rewrite ?N;
  repeat match goal with A : argNode P _ = true |- _ =>
                           rewrite A; clear A end;
  auto.

Lemma parseSubstrFunc_shaped (pf : production) (name : string) :
  P name = true -> shaped_production P pf ->
  shaped_production P (parseSubstrFunc pf name).
Proof.
  intros N OK s n s' E. unfold parseSubstrFunc in E. build E OK N.
Qed.

Lemma parseRemoveFunc_shaped (pf : production) (name : string)
    (a : acceptFunc) :
  P name = true -> shaped_production P pf ->
  shaped_production P (parseRemoveFunc pf name a).
Proof.
  intros N OK s n s' E. unfold parseRemoveFunc in E. build E OK N.
Qed.

Lemma parseReplaceFunc_shaped (pf : production) (name : string) :
  P name = true -> shaped_production P pf ->
  shaped_production P (parseReplaceFunc pf name).
Proof.
  intros N OK s n s' E. unfold parseReplaceFunc in E. build E OK N.
Qed.

Lemma parseCasingFunc_shaped (name : string) :
  P name = true -> shaped_production P (parseCasingFunc name).
Proof.
  intros N s n s' E. unfold parseCasingFunc in E.
  unfold_all E. apply closing_inv in E. destruct E as [-> _].
  simpl. rewrite N. reflexivity.
Qed.

Lemma parseLenFunc_shaped : shaped_production P parseLenFunc.
Proof.
  intros s n s' E. unfold parseLenFunc in E.
  destruct (scan _) as [tok s1]. destruct tok; try discriminate E.
  destruct (scan (set_mode scanIdent (set_accept acceptIdent s1)))
    as [tok s2] eqn:Sc.
  destruct tok; try discriminate E.
  apply closing_inv in E. destruct E as [-> _].
  simpl. rewrite (ident_text _ _ Sc). reflexivity.
Qed.

Lemma defaultLoop_shaped (pf : production) (fuel : nat) (name opname : string) :
  P name = true -> shaped_production P pf ->
  forall args, forallb (argNode P) args = true ->
  shaped_production P (defaultLoop pf fuel name opname args).
Proof.
  intros N OK. induction fuel as [|fuel IH]; intros args A s n s' E.
  - discriminate E.
  - simpl in E. destruct (rune_eqb (peek s) "}").
    + apply closing_inv in E. destruct E as [-> _].
      simpl. rewrite N, A. reflexivity.
    + destruct (parseParam pf acceptNotClosing scanIdent s)
        as [[[p [err|]] s1]|] eqn:Pm; try discriminate E.
      apply (parseParam_arg _ _ _ _ _ _ OK) in Pm.
      eapply IH; [|exact E].
      rewrite forallb_app, A. simpl. rewrite Pm. reflexivity.
Qed.

Lemma parseDefaultFunc_shaped (pf : production) (fuel : nat) (name : string) :
  P name = true -> shaped_production P pf ->
  shaped_production P (parseDefaultFunc pf fuel name).
Proof.
  intros N OK s n s' E. unfold parseDefaultFunc in E.
  destruct (scan _) as [tok s1]. destruct tok; try discriminate E.
  eapply (defaultLoop_shaped pf fuel name _ N OK []); [reflexivity | exact E].
Qed.

Lemma parseDefaultOrSubstr_shaped (pf : production) (fuel : nat)
    (name : string) :
  P name = true -> shaped_production P pf ->
  shaped_production P (parseDefaultOrSubstr pf fuel name).
Proof.
  intros N OK s n s' E. unfold parseDefaultOrSubstr in E.
  destruct (read s) as [r0 s1].
  destruct (isDefaultOp (peek s1)).
  - eapply parseDefaultFunc_shaped; eassumption.
  - eapply parseSubstrFunc_shaped; eassumption.
Qed.

Lemma parseFuncBody_shaped (pf : production) (fuel : nat) :
  shaped_production P pf -> shaped_production P (parseFuncBody pf fuel).
Proof.
  intros OK s n s' E. unfold parseFuncBody in E.
  destruct (rune_eqb (peek (set_escapeChars escapeAll s)) "#").
  { eapply parseLenFunc_shaped; eassumption. }
  destruct (scan _) as [tok s1] eqn:Sc. destruct tok; try discriminate E.
  pose proof (ident_text _ _ Sc) as N.
  destruct (rune_eqb (peek s1) ":").
  { eapply parseDefaultOrSubstr_shaped; eassumption. }
  destruct (rune_eqb (peek s1) "=").
  { eapply parseDefaultFunc_shaped; eassumption. }
  destruct (rune_eqb (peek s1) "," || rune_eqb (peek s1) "^").
  { eapply parseCasingFunc_shaped; eassumption. }
  destruct (rune_eqb (peek s1) "/").
  { eapply parseReplaceFunc_shaped; eassumption. }
  destruct (rune_eqb (peek s1) "#").
  { eapply parseRemoveFunc_shaped; eassumption. }
  destruct (rune_eqb (peek s1) "%").
  { eapply parseRemoveFunc_shaped; eassumption. }
  destruct (scan (set_mode scanRbrack (set_accept acceptIdent s1)))
    as [tok s2].
  destruct tok; try discriminate E.
  inversion E; subst. simpl. rewrite N. reflexivity.
Qed.

Lemma parseFunc_shaped (fuel : nat) : shaped_production P (parseFunc fuel).
Proof.
  induction fuel as [|fuel IH].
  - intros s n s' E. discriminate E.
  - simpl. apply parseFuncBody_shaped. exact IH.
Qed.

Lemma argNode_chain (n : Node) : argNode P n = true -> chainNode P n = true.
Proof. destruct n; simpl; auto. discriminate. Qed.

Lemma joinRight_chain (l n : Node) (r : option result) (s' : S) :
  argNode P l = true ->
  (forall rn rs, r = Some (rn, None, rs) -> treeShape P rn = true) ->
  joinRight l r = Some (n, None, s') -> chainNode P n = true.
Proof.
  intros L R E. unfold joinRight in E.
  destruct r as [[[rn [re|]] rs]|]; try discriminate E.
  specialize (R rn rs eq_refl). unfold treeShape in R.
  destruct (is_empty rn) eqn:Em; inversion E; subst.
  - apply argNode_chain. exact L.
  - simpl in R. simpl. rewrite L, R. reflexivity.
Qed.

Lemma parseAny_chain (fuel : nat) (s : S) (n : Node) (s' : S) :
  parseAny fuel s = Some (n, None, s') -> treeShape P n = true.
Proof.
  revert s n s'. induction fuel as [|fuel IH]; intros s n s' E.
  - discriminate E.
  - simpl in E. destruct (scan _) as [tok s1].
    destruct tok; try discriminate E.
    + inversion E; reflexivity.
    + unfold treeShape. apply orb_true_iff. right.
      eapply joinRight_chain; [ | |exact E]; [reflexivity|].
      intros rn rs R. eapply IH; exact R.
    + destruct (parseFunc fuel s1) as [[[ln [le|]] ls]|] eqn:F;
        try discriminate E.
      apply parseFunc_shaped in F.
      unfold treeShape. apply orb_true_iff. right.
      eapply joinRight_chain; [exact F| |exact E].
      intros rn rs R. eapply IH; exact R.
Qed.

(** X3.  In the tree of a successful Parse the Param of every Func node is
    the text of an identifier token: whatever holds of the text of every
    identifier token that the scanner returns holds of every Param, at the
    root, along the List chain and inside arguments. *)
Theorem Parse_params_are_identifier_tokens (fuel : nat) (buf : string)
    (t : Tree) :
  Parse fuel buf = Some (t, None) -> treeShape P (Root t) = true.
Proof.
  unfold Parse.
  destruct (parseAny fuel (init buf zero)) as [[[n err] s1]|] eqn:E;
    [|discriminate].
  intros Q. inversion Q; subst. simpl.
  eapply parseAny_chain; exact E.
Qed.

End TreeShape.

Section TreeFacts.

Context {S : Type} `{Scanner S}.

(** X2.  The tree of a successful Parse is the sentinel (no token in the
    input) or a chain that leans to the right: the left child of a List
    node is a Text or a Func node, never a List node, and the arguments of
    a Func node are Text or Func nodes, never List nodes; nil and the
    sentinel occur nowhere inside the tree. *)
Theorem Parse_tree_shape (fuel : nat) (buf : string) (t : Tree) :
  Parse fuel buf = Some (t, None) -> treeShape (fun _ => true) (Root t) = true.
Proof.
  unfold Parse.
  destruct (parseAny fuel (init buf zero)) as [[[n err] s1]|] eqn:E;
    [|discriminate].
  intros Q. inversion Q; subst. simpl.
  eapply (parseAny_chain (fun _ => true)); [reflexivity | exact E].
Qed.

(** X1.  The Root of the Tree that Parse returns is nil exactly when Parse
    returns an error: a success never comes with a nil Root. *)
Theorem Parse_root_nil_iff_error (fuel : nat) (buf : string) (t : Tree)
    (e : option error) :
  Parse fuel buf = Some (t, e) -> (Root t = nil_node <-> e <> None).
Proof.
  unfold Parse.
  destruct (parseAny fuel (init buf zero)) as [[[n err] s1]|] eqn:E;
    [|discriminate].
  intros Q. inversion Q; subst. simpl. split.
  - intros -> ->.
    apply (parseAny_chain (fun _ => true)) in E; [discriminate E | reflexivity].
  - destruct e as [e|]; [|congruence]. intros _.
    eapply parseAny_error_nil; exact E.
Qed.

Lemma parseAny_ends_at_EOF (fuel : nat) (s : S) (n : Node) (s' : S) :
  parseAny fuel s = Some (n, None, s') ->
  exists s0, scan (anyScanner s0) = (tokenEOF, s').
Proof.
  revert s n. induction fuel as [|fuel IH]; intros s n E.
  - discriminate E.
  - rewrite parseAny_step in E.
    destruct (scan (anyScanner s)) as [tok s1] eqn:Sc.
    destruct tok; try discriminate E.
    + inversion E; subst. exists s. exact Sc.
    + unfold joinRight in E.
      destruct (parseAny fuel s1) as [[[rn [re|]] rs]|] eqn:R;
        try discriminate E.
      destruct (is_empty rn); inversion E; subst; eapply IH; exact R.
    + destruct (parseFunc fuel s1) as [[[ln [le|]] ls]|]; try discriminate E.
      unfold joinRight in E.
      destruct (parseAny fuel ls) as [[[rn [re|]] rs]|] eqn:R;
        try discriminate E.
      destruct (is_empty rn); inversion E; subst; eapply IH; exact R.
Qed.

(** The loop of parseDefaultFunc, forwards: what a success went through. *)
Lemma defaultLoop_trace (pf : production) (name opname : string) (fuel : nat) :
  forall (acc : list Node) (s s' : S) (node : Node),
    defaultLoop pf fuel name opname acc s = Some (node, None, s') ->
    exists args s2,
      loopArgs pf s args s2
      /\ node = FuncNode name opname (acc ++ args)
      /\ scan (set_mode scanRbrack s2) = (tokenRbrack, s')
      /\ length args < fuel.
Proof.
  induction fuel as [|fuel IH]; intros acc s s' node E.
  - discriminate E.
  - cbn [defaultLoop] in E. destruct (rune_eqb (peek s) "}") eqn:Pk.
    + apply closing_inv in E. destruct E as [-> C].
      apply consumeRbrack_ok in C.
      exists [], s. rewrite app_nil_r.
      repeat split; [constructor; exact Pk | exact C | cbn; lia].
    + destruct (parseParam pf acceptNotClosing scanIdent s)
        as [[[p [err|]] s1]|] eqn:Pm; try discriminate E.
      apply IH in E. destruct E as (args & s2 & L & -> & C & Len).
      exists (p :: args), s2. rewrite <- app_assoc. cbn [app].
      repeat split; [econstructor; eassumption | exact C | cbn; lia].
Qed.

(** And backwards: a run of the loop is a success on every budget above
    the number of its turns. *)
Lemma defaultLoop_run (pf : production) (name opname : string)
    (s s2 s' : S) (args : list Node) :
  loopArgs pf s args s2 ->
  scan (set_mode scanRbrack s2) = (tokenRbrack, s') ->
  forall (acc : list Node) (fuel : nat),
    length args < fuel ->
    defaultLoop pf fuel name opname acc s
    = Some (FuncNode name opname (acc ++ args), None, s').
Proof.
  intros L C. induction L as [s Pk | s s1 s2 p args Pk Pm L IH];
    intros acc fuel Len.
  - destruct fuel as [|fuel]; [cbn in Len; lia|].
    cbn [defaultLoop]. rewrite Pk. unfold closing.
    rewrite (consumeRbrack_token _ _ C), app_nil_r. reflexivity.
  - destruct fuel as [|fuel]; [cbn in Len; lia|].
    cbn [defaultLoop]. rewrite Pk, Pm.
    rewrite (IH C (acc ++ [p])%list fuel); [|cbn in Len; lia].
    rewrite <- app_assoc. reflexivity.
Qed.

Lemma loopArgs_functional (pf : production) (s s2 s2' : S)
    (args args' : list Node) :
  loopArgs pf s args s2 -> loopArgs pf s args' s2' ->
  args = args' /\ s2 = s2'.
Proof.
  intros L. revert args' s2'.
  induction L as [s Pk | s s1 s2 p args Pk Pm L IH]; intros args' s2' L'.
  - inversion L'; subst; [auto | congruence].
  - inversion L' as [|? s1' ? p' args0 Pk' Pm' L0]; subst; [congruence|].
    rewrite Pm in Pm'. inversion Pm'; subst.
    destruct (IH _ _ L0) as [-> ->]. auto.
Qed.

(** X6.  parseDefaultFunc succeeds exactly along a run of its loop.  A
    success scanned the operator token, whose text is the Name of the node,
    then called parseParam with acceptNotClosing once for every turn of the
    loop, each call on the scanner the call before it left; the arguments
    of the node are the results of these calls, in the order of the calls,
    and there are fewer of them than the budget; the loop ended on a
    scanner in front of a closing brace, and the scan that followed, in mode
    scanRbrack, returned the closing-brace token.  Conversely such a run
    is a success with that node on every budget above the number of its
    turns, and the scanner after the operator has one run at most. *)
Theorem parseDefaultFunc_arguments (pf : production) (name : string)
    (s : S) :
  (forall (fuel : nat) (node : Node) (s' : S),
      parseDefaultFunc pf fuel name s = Some (node, None, s') ->
      exists s1 args s2,
        scan (defaultScanner s) = (tokenIdent, s1)
        /\ loopArgs pf s1 args s2
        /\ node = FuncNode name (string_ s1) args
        /\ scan (set_mode scanRbrack s2) = (tokenRbrack, s')
        /\ length args < fuel)
  /\ (forall (s1 s2 s' : S) (args : list Node) (fuel : nat),
        scan (defaultScanner s) = (tokenIdent, s1) ->
        loopArgs pf s1 args s2 ->
        scan (set_mode scanRbrack s2) = (tokenRbrack, s') ->
        length args < fuel ->
        parseDefaultFunc pf fuel name s
        = Some (FuncNode name (string_ s1) args, None, s'))
  /\ (forall (s1 s2 s2' : S) (args args' : list Node),
        loopArgs pf s1 args s2 -> loopArgs pf s1 args' s2' ->
        args = args' /\ s2 = s2').
Proof.
  split; [|split].
  - intros fuel node s' E.
    unfold parseDefaultFunc in E. fold (defaultScanner s) in E.
    destruct (scan (defaultScanner s)) as [tok s1] eqn:E1.
    destruct tok; try discriminate.
    apply defaultLoop_trace in E.
    destruct E as (args & s2 & L & -> & C & Len).
    exists s1, args, s2. repeat split; assumption.
  - intros s1 s2 s' args fuel E1 L C Len.
    unfold parseDefaultFunc. fold (defaultScanner s). rewrite E1.
    apply (defaultLoop_run pf name _ _ _ _ _ L C [] fuel Len).
  - intros s1 s2 s2' args args'. apply loopArgs_functional.
Qed.

End TreeFacts.

(** * An error that Parse never returns *)

Section DefaultError.

Context {S : Type} `{Scanner S}.

Ltac open_up E :=
  repeat (match type of E with
          | context [match ?x with _ => _ end] => destruct x eqn:?
          end; cbv beta iota in E; try discriminate E).

Lemma parseParam_never (pf : production) (a : acceptFunc) (m : N) :
  neverFails ErrParseDefaultFunction pf ->
  neverFails ErrParseDefaultFunction (parseParam pf a m).
Proof.
  intros NF s n s' E. unfold parseParam in E.
  destruct (scan _) as [tok s1]. destruct tok; try discriminate E.
  exact (NF _ _ _ E).
Qed.

Ltac refute E NF :=
  open_up E;
  try (apply closing_inv in E; destruct E as [_ E];
       apply consumeRbrack_error in E; discriminate E);
  inversion E; subst;
  match goal with
  | A : parseParam _ _ _ _ = Some (_, Some ErrParseDefaultFunction, _) |- _ =>
    exact (parseParam_never _ _ _ NF _ _ _ A)
  end.

Lemma parseSubstrFunc_never (pf : production) (name : string) :
  neverFails ErrParseDefaultFunction pf ->
  neverFails ErrParseDefaultFunction (parseSubstrFunc pf name).
Proof. intros NF s n s' E. unfold parseSubstrFunc in E. refute E NF. Qed.

Lemma parseRemoveFunc_never (pf : production) (name : string)
    (a : acceptFunc) :
  neverFails ErrParseDefaultFunction pf ->
  neverFails ErrParseDefaultFunction (parseRemoveFunc pf name a).
Proof. intros NF s n s' E. unfold parseRemoveFunc in E. refute E NF. Qed.

Lemma parseReplaceFunc_never (pf : production) (name : string) :
  neverFails ErrParseDefaultFunction pf ->
  neverFails ErrParseDefaultFunction (parseReplaceFunc pf name).
Proof. intros NF s n s' E. unfold parseReplaceFunc in E. refute E NF. Qed.

Lemma parseCasingFunc_never (name : string) :
  neverFails ErrParseDefaultFunction (parseCasingFunc name).
Proof.
  intros s n s' E. unfold parseCasingFunc in E. open_up E.
  apply closing_inv in E. destruct E as [_ E].
  apply consumeRbrack_error in E. discriminate E.
Qed.

Lemma parseLenFunc_never : neverFails ErrParseDefaultFunction parseLenFunc.
Proof.
  intros s n s' E. unfold parseLenFunc in E. open_up E.
  apply closing_inv in E. destruct E as [_ E].
  apply consumeRbrack_error in E. discriminate E.
Qed.

Lemma defaultLoop_never (pf : production) (fuel : nat) (name opname : string) :
  neverFails ErrParseDefaultFunction pf ->
  forall args,
    neverFails ErrParseDefaultFunction (defaultLoop pf fuel name opname args).
Proof.
  intros NF. induction fuel as [|fuel IH]; intros args s n s' E.
  - discriminate E.
  - simpl in E. destruct (rune_eqb (peek s) "}").
    + apply closing_inv in E. destruct E as [_ E].
      apply consumeRbrack_error in E. discriminate E.
    + destruct (parseParam pf acceptNotClosing scanIdent s)
        as [[[p [err|]] s1]|] eqn:Pm; try discriminate E.
      * inversion E; subst. exact (parseParam_never _ _ _ NF _ _ _ Pm).
      * exact (IH _ _ _ _ E).
Qed.

(** parseDefaultFunc fails with ErrParseDefaultFunction only when the scan
    of its operator does not return an identifier token. *)
Lemma parseDefaultFunc_never (pf : production) (fuel : nat) (name : string)
    (s : S) (n : Node) (s' : S) :
  neverFails ErrParseDefaultFunction pf ->
  fst (scan (defaultScanner s)) = tokenIdent ->
  parseDefaultFunc pf fuel name s <> Some (n, Some ErrParseDefaultFunction, s').
Proof.
  intros NF T E. unfold parseDefaultFunc in E. fold (defaultScanner s) in E.
  destruct (scan (defaultScanner s)) as [tok s1]. simpl in T. subst tok.
  exact (defaultLoop_never pf fuel name _ NF _ _ _ _ E).
Qed.

End DefaultError.

Section DefaultErrorScanner.

(** With the scanner on [=], or on [:] followed by one of [=] [-] [?] [+],
    the scan of the operator of parseDefaultFunc returns an identifier
    token. *)
Lemma default_operator_scans (s : Scan.scanner) (rest : list rune) :
  Scan.input s = "=" :: rest
  \/ (exists r rest', Scan.input s = ":" :: r :: rest') ->
  fst (scan (defaultScanner s)) = tokenIdent.
Proof.
  intros I. destruct s as [i t l m e a]. cbn [Scan.input] in I.
  assert (forall acc c tl,
             Scan.accepted (Some acc) c 1 = true ->
             rune_eqb c Scan.eof = false ->
             rune_eqb c "}" = false ->
             fst (Scan.scan (Scan.mkScanner (c :: tl) t l scanIdent e (Some acc)))
             = tokenIdent) as Run.
  { intros acc c tl A Z R. unfold Scan.scan.
    cbn [Scan.input Scan.mode Scan.escapeChars Scan.accept]. rewrite Z.
    cbn [Scan.opensSubst Scan.has]. simpl andb. cbv iota.
    rewrite scanRun_take; [|exact Z|exact A].
    pose proof (scanRun_length scanIdent e (Some acc) (length tl) tl
                  ([] ++ [c])%list (Nat.le_refl _)) as [L _].
    destruct (Scan.scanRun scanIdent e (Some acc) ([] ++ [c])%list tl)
      as [[|x tx] rest2]; [simpl in L; lia | reflexivity]. }
  destruct I as [-> | (r & rest' & ->)].
  - apply (Run acceptOneEqual); reflexivity.
  - apply (Run acceptDefaultFunc); reflexivity.
Qed.

Lemma peek_rune (s : Scan.scanner) (c : rune) :
  rune_eqb (Scan.peek s) c = true -> rune_eqb c Scan.eof = false ->
  exists rest, Scan.input s = c :: rest.
Proof.
  unfold Scan.peek, rune_eqb. intros E Z.
  destruct (Scan.input s) as [|r rest]; cbn [hd] in E;
    apply Ascii.eqb_eq in E.
  - subst c. discriminate Z.
  - subst r. eauto.
Qed.

Lemma parseDefaultOrSubstr_never (pf : production) (fuel : nat)
    (name : string) (s : Scan.scanner) (n : Node) (s' : Scan.scanner) :
  neverFails ErrParseDefaultFunction pf ->
  rune_eqb (Scan.peek s) ":" = true ->
  parseDefaultOrSubstr pf fuel name s
  <> Some (n, Some ErrParseDefaultFunction, s').
Proof.
  intros NF Pk E. destruct (peek_rune s ":" Pk eq_refl) as [rest I].
  destruct s as [i t l m e a]. cbn [Scan.input] in I. subst i.
  unfold parseDefaultOrSubstr in E.
  destruct rest as [|r rest'].
  - exact (parseSubstrFunc_never pf name NF _ _ _ E).
  - assert ((if isDefaultOp r
             then parseDefaultFunc pf fuel name
                    (Scan.mkScanner (":" :: r :: rest') t None m e a)
             else parseSubstrFunc pf name
                    (Scan.mkScanner (":" :: r :: rest') t None m e a))
            = Some (n, Some ErrParseDefaultFunction, s')) as E' by exact E.
    clear E. rename E' into E.
    destruct (isDefaultOp r).
    + refine (parseDefaultFunc_never pf fuel name _ _ _ NF _ E).
      apply (default_operator_scans _ rest'). right.
      exists r, rest'. reflexivity.
    + exact (parseSubstrFunc_never pf name NF _ _ _ E).
Qed.

Lemma parseFuncBody_never (pf : production) (fuel : nat) :
  neverFails ErrParseDefaultFunction pf ->
  neverFails (S := Scan.scanner) ErrParseDefaultFunction
    (parseFuncBody pf fuel).
Proof.
  intros NF s n s' E. unfold parseFuncBody in E.
  destruct (rune_eqb (peek (set_escapeChars escapeAll s)) "#").
  { exact (parseLenFunc_never _ _ _ E). }
  destruct (scan _) as [tok s1]. destruct tok; try discriminate E.
  destruct (rune_eqb (peek s1) ":") eqn:P1.
  { exact (parseDefaultOrSubstr_never pf fuel _ s1 n s' NF P1 E). }
  destruct (rune_eqb (peek s1) "=") eqn:P2.
  { refine (parseDefaultFunc_never pf fuel _ _ _ _ NF _ E).
    destruct (peek_rune s1 "=" P2 eq_refl) as [rest I].
    apply (default_operator_scans _ rest). left. exact I. }
  destruct (rune_eqb (peek s1) "," || rune_eqb (peek s1) "^").
  { exact (parseCasingFunc_never _ _ _ _ E). }
  destruct (rune_eqb (peek s1) "/").
  { exact (parseReplaceFunc_never pf _ NF _ _ _ E). }
  destruct (rune_eqb (peek s1) "#").
  { exact (parseRemoveFunc_never pf _ _ NF _ _ _ E). }
  destruct (rune_eqb (peek s1) "%").
  { exact (parseRemoveFunc_never pf _ _ NF _ _ _ E). }
  destruct (scan _) as [tok s2]. destruct tok; discriminate E.
Qed.

Lemma parseFunc_never (fuel : nat) :
  neverFails (S := Scan.scanner) ErrParseDefaultFunction (parseFunc fuel).
Proof.
  induction fuel as [|fuel IH].
  - intros s n s' E. discriminate E.
  - simpl. apply parseFuncBody_never. exact IH.
Qed.

Lemma parseAny_never (fuel : nat) :
  neverFails (S := Scan.scanner) ErrParseDefaultFunction (parseAny fuel).
Proof.
  induction fuel as [|fuel IH]; intros s n s' E; [discriminate E|].
  rewrite parseAny_step in E.
  destruct (scan (anyScanner s)) as [tok s1].
  destruct tok; try discriminate E.
  - unfold joinRight in E.
    destruct (parseAny fuel s1) as [[[rn [re|]] rs]|] eqn:R;
      try discriminate E.
    + inversion E; subst. exact (IH _ _ _ R).
    + destruct (is_empty rn); discriminate E.
  - destruct (parseFunc fuel s1) as [[[ln [le|]] ls]|] eqn:F;
      try discriminate E.
    + inversion E; subst. exact (parseFunc_never _ _ _ _ F).
    + unfold joinRight in E.
      destruct (parseAny fuel ls) as [[[rn [re|]] rs]|] eqn:R;
        try discriminate E.
      * inversion E; subst. exact (IH _ _ _ R).
      * destruct (is_empty rn); discriminate E.
Qed.

End DefaultErrorScanner.

(** X9.  With the scanner [Scan.scanner], Parse returns
    ErrParseDefaultFunction on no input, and returns each of the other four
    errors on some input: parseFunc enters parseDefaultFunc only with the
    scanner on [=], or on [:] followed by one of [=] [-] [?] [+], and there
    the scan of the operator returns an identifier token. *)
Theorem Parse_errors :
  (forall (fuel : nat) (buf : string) (t : Tree) (e : error),
      ParseString fuel buf = Some (t, Some e) ->
      e = ErrBadSubstitution \/ e = ErrMissingClosingBrace
      \/ e = ErrParseVariableName \/ e = ErrParseFuncSubstitution)
  /\ (exists buf, outcome 4 buf = Some (nil_node, Some ErrBadSubstitution))
  /\ (exists buf, outcome 4 buf = Some (nil_node, Some ErrMissingClosingBrace))
  /\ (exists buf, outcome 4 buf = Some (nil_node, Some ErrParseVariableName))
  /\ (exists buf,
         outcome 4 buf = Some (nil_node, Some ErrParseFuncSubstitution)).
Proof.
  split.
  - intros fuel buf t e. unfold ParseString, Parse.
    destruct (parseAny fuel (init buf zero)) as [[[n err] s1]|] eqn:E;
      [|discriminate].
    intros Q. inversion Q; subst.
    destruct e; auto.
    exfalso. exact (parseAny_never fuel _ _ _ E).
  - repeat split.
    + exists "${VAR^^"%string. reflexivity.
    + exists "${VAR"%string. reflexivity.
    + exists "${}"%string. reflexivity.
    + exists "${VAR:-w"%string. reflexivity.
Qed.

(** * Parse on the operator forms and on concatenated text *)

Section Forms.

(** A scan does not look at the text of the token before it. *)
Lemma scan_forgets_text (inp tx tx' : list rune) (l : option rune) (m : N)
    (e : list rune) (a : option acceptFunc) :
  Scan.scan (Scan.mkScanner inp tx l m e a)
  = Scan.scan (Scan.mkScanner inp tx' l m e a).
Proof.
  unfold Scan.scan.
  cbn [Scan.input Scan.mode Scan.escapeChars Scan.accept].
  destruct inp as [|r rest]; [reflexivity|].
  destruct (rune_eqb r Scan.eof); [reflexivity|].
  destruct (Scan.opensSubst m r rest); [reflexivity|].
  destruct (Scan.has m scanRbrack && rune_eqb r "}"); [reflexivity|].
  destruct (Scan.has m scanIdent); [|reflexivity].
  destruct (Scan.scanRun m e a [] (r :: rest)) as [[|c tx0] rest2];
    reflexivity.
Qed.

(** parseAny goes by the input left to read: it sets accept, mode and
    escapeChars itself and its first scan replaces the text. *)
Lemma parseAny_forgets (fuel : nat) (inp tx tx' : list rune)
    (l : option rune) (m m' : N) (e e' : list rune)
    (a a' : option acceptFunc) :
  parseAny fuel (Scan.mkScanner inp tx l m e a)
  = parseAny fuel (Scan.mkScanner inp tx' l m' e' a').
Proof.
  destruct fuel as [|fuel]; [reflexivity|].
  rewrite !parseAny_step.
  change (scan (anyScanner (Scan.mkScanner inp tx l m e a)))
    with (Scan.scan (Scan.mkScanner inp tx l anyMode dollar (Some acceptRune))).
  change (scan (anyScanner (Scan.mkScanner inp tx' l m' e' a')))
    with (Scan.scan (Scan.mkScanner inp tx' l anyMode dollar (Some acceptRune))).
  rewrite (scan_forgets_text inp tx tx'). reflexivity.
Qed.

Lemma parseAny_at_end (fuel : nat) (tx : list rune) (l : option rune) (m : N)
    (e : list rune) (a : option acceptFunc) :
  exists s', parseAny (Datatypes.S fuel) (Scan.mkScanner [] tx l m e a)
             = Some (empty, None, s').
Proof. eexists. reflexivity. Qed.

Lemma scan_hash_any (inp tx : list rune) (l : option rune) (esc : list rune) :
  Scan.scan (Scan.mkScanner ("#" :: inp) tx l scanIdent esc (Some acceptOneHash))
  = (tokenIdent, Scan.mkScanner inp ["#"] l scanIdent esc (Some acceptOneHash)).
Proof.
  unfold Scan.scan.
  cbn [Scan.input Scan.mode Scan.escapeChars Scan.accept].
  change (rune_eqb "#" Scan.eof) with false. cbv iota.
  cbn [Scan.opensSubst Scan.has]. simpl andb. cbv iota.
  rewrite scanRun_take; [|reflexivity|reflexivity].
  destruct inp as [|c inp]; [reflexivity|].
  rewrite scanRun_stop; [reflexivity|].
  simpl. rewrite andb_false_r. reflexivity.
Qed.

(** parseFunc on [#NAME] followed by [rest]: operator and name are scanned
    and the closing brace is looked for in [rest]. *)
Lemma parseFuncBody_length (pf : production) (fuel : nat) (name : string)
    (rest tx : list rune) (l : option rune) (m : N) (esc : list rune)
    (acc : option acceptFunc) :
  identifier name = true -> identStop rest = true ->
  parseFuncBody pf fuel
    (Scan.mkScanner ("#" :: list_ascii_of_string name ++ rest) tx l m esc acc)
  = closing (FuncNode name "#" [])
      (Scan.mkScanner rest (list_ascii_of_string name) l scanIdent escapeAll
         (Some acceptIdent)).
Proof.
  intros I St. destruct (identifier_runes name I) as (N & NE & _).
  rewrite parseFuncBody_split.
  change (peek (set_escapeChars escapeAll
            (Scan.mkScanner ("#" :: list_ascii_of_string name ++ rest) tx l m
               esc acc))) with "#".
  change (rune_eqb "#" "#") with true. cbv iota.
  unfold parseLenFunc.
  change (scan (set_mode scanIdent (set_accept acceptOneHash
            (set_escapeChars escapeAll
               (Scan.mkScanner ("#" :: list_ascii_of_string name ++ rest) tx l
                  m esc acc)))))
    with (Scan.scan (Scan.mkScanner ("#" :: list_ascii_of_string name ++ rest)
                       tx l scanIdent escapeAll (Some acceptOneHash))).
  rewrite scan_hash_any. cbv iota beta.
  change (scan (set_mode scanIdent (set_accept acceptIdent
            (Scan.mkScanner (list_ascii_of_string name ++ rest) ["#"] l
               scanIdent escapeAll (Some acceptOneHash)))))
    with (Scan.scan (Scan.mkScanner (list_ascii_of_string name ++ rest) ["#"]
                       l scanIdent escapeAll (Some acceptIdent))).
  rewrite (scan_identifier _ _ _ _ _ N NE St). cbv iota beta.
  change (string_ (Scan.mkScanner rest (list_ascii_of_string name) l scanIdent
                     escapeAll (Some acceptIdent)))
    with (string_of_list_ascii (list_ascii_of_string name)).
  rewrite string_of_list_ascii_of_string. reflexivity.
Qed.

(** A run of literal runes in the mode of parseAny stops in front of [${]. *)
Lemma scanRun_literal_until (a rest : list rune) :
  forallb literalRune a = true ->
  forall tx,
    Scan.scanRun anyMode dollar (Some acceptRune) tx (a ++ "$" :: "{" :: rest)
    = ((tx ++ a)%list, "$" :: "{" :: rest).
Proof.
  induction a as [|r a IH]; intros L tx.
  - rewrite app_nil_r. reflexivity.
  - simpl in L. apply andb_prop in L. destruct L as [Lr L].
    destruct (literalRune_runes r Lr) as (D & B & E).
    rewrite <- app_comm_cons. simpl Scan.scanRun.
    unfold Scan.opensSubst, Scan.escaped. rewrite D, B, E. simpl.
    specialize (IH L (tx ++ [r])%list).
    rewrite <- app_assoc in IH. simpl in IH.
    destruct (a ++ "$" :: "{" :: rest)%list; exact IH.
Qed.

Lemma scan_literal_until (a rest tx : list rune) (l : option rune) :
  forallb literalRune a = true -> a <> [] ->
  Scan.scan (Scan.mkScanner (a ++ "$" :: "{" :: rest) tx l anyMode dollar
               (Some acceptRune))
  = (tokenIdent,
     Scan.mkScanner ("$" :: "{" :: rest) a l anyMode dollar (Some acceptRune)).
Proof.
  intros L NE. pose proof (scanRun_literal_until a rest L []) as R.
  destruct a as [|r a]; [congruence|].
  simpl in L. apply andb_prop in L. destruct L as [Lr _].
  destruct (literalRune_runes r Lr) as (D & _ & E).
  unfold Scan.scan. cbn [Scan.input Scan.mode Scan.escapeChars Scan.accept].
  rewrite <- app_comm_cons in *. cbv iota.
  unfold Scan.opensSubst. rewrite E, D, has_anyMode_Rbrack.
  rewrite andb_false_r. cbn [andb].
  change (Scan.has anyMode scanIdent) with true. cbv iota.
  rewrite R. reflexivity.
Qed.

(** What parseAny returns on input that opens a substitution is no
    sentinel. *)
Lemma parseAny_open_not_empty (fuel : nat) (rest tx : list rune)
    (l : option rune) (m : N) (e : list rune) (a : option acceptFunc)
    (n : Node) (s' : Scan.scanner) :
  parseAny fuel (Scan.mkScanner ("$" :: "{" :: rest) tx l m e a)
  = Some (n, None, s') ->
  is_empty n = false.
Proof.
  destruct fuel as [|fuel]; [discriminate|].
  rewrite parseAny_step.
  change (scan (anyScanner (Scan.mkScanner ("$" :: "{" :: rest) tx l m e a)))
    with (tokenLbrack,
          Scan.mkScanner rest ["$"; "{"] l anyMode dollar (Some acceptRune)).
  cbv iota beta.
  destruct (parseFunc fuel _) as [[[ln [le|]] ls]|] eqn:F; try discriminate.
  apply parseFunc_sound in F. destruct F as [F _].
  unfold joinRight.
  destruct (parseAny fuel ls) as [[[rn [re|]] rs]|]; try discriminate.
  destruct (is_empty rn); intros E; inversion E; subst; auto.
Qed.

End Forms.

(** * Unclosed substitutions, wherever they stand *)

Section UnclosedFacts.

Lemma scanRun_incl (md : N) (esc : list rune) (acc : option acceptFunc)
    (n : nat) :
  forall inp tx, length inp <= n ->
    incl (snd (Scan.scanRun md esc acc tx inp)) inp.
Proof.
  induction n as [|n IH]; intros inp tx L.
  - destruct inp; [apply incl_refl | simpl in L; lia].
  - destruct inp as [|r rest]; [apply incl_refl|].
    simpl in L. cbn [Scan.scanRun].
    destruct (rune_eqb r Scan.eof || Scan.opensSubst md r rest);
      [apply incl_refl|].
    destruct rest as [|c rest'].
    + destruct (Scan.accepted acc r (Datatypes.S (length tx)));
        [|apply incl_refl].
      cbn. intros x [].
    + destruct (Scan.escaped md esc r c).
      * apply incl_tl, incl_tl, IH. simpl in L. lia.
      * destruct (Scan.accepted acc r (Datatypes.S (length tx)));
          [|apply incl_refl].
        apply incl_tl, IH. simpl in *. lia.
Qed.

Lemma scan_input (s : Scan.scanner) (tok : token) (s' : Scan.scanner) :
  Scan.scan s = (tok, s') ->
  incl (Scan.input s') (Scan.input s)
  /\ (tok = tokenRbrack -> In "}" (Scan.input s))
  /\ (tok = tokenEOF -> Scan.input s' = [] \/ In Scan.eof (Scan.input s)).
Proof.
  unfold Scan.scan.
  destruct (Scan.input s) as [|r rest] eqn:I.
  { intros E; inversion E; subst. cbn. rewrite I.
    repeat split; [apply incl_refl | discriminate | auto]. }
  destruct (rune_eqb r Scan.eof) eqn:Z.
  { intros E; inversion E; subst. cbn.
    apply Ascii.eqb_eq in Z. subst r.
    repeat split; [apply incl_tl, incl_refl | discriminate |].
    intros _. right. left. reflexivity. }
  destruct (Scan.opensSubst (Scan.mode s) r rest).
  { intros E; inversion E; subst. cbn.
    repeat split; try discriminate.
    destruct rest; [apply incl_tl, incl_refl|].
    apply incl_tl, incl_tl, incl_refl. }
  destruct (Scan.has (Scan.mode s) scanRbrack && rune_eqb r "}") eqn:R.
  { intros E; inversion E; subst. cbn.
    apply andb_prop in R. destruct R as [_ R].
    apply Ascii.eqb_eq in R. subst r.
    repeat split; [apply incl_tl, incl_refl | | discriminate].
    intros _. left. reflexivity. }
  destruct (Scan.has (Scan.mode s) scanIdent).
  - pose proof (scanRun_incl (Scan.mode s) (Scan.escapeChars s)
                  (Scan.accept s) (length (r :: rest)) (r :: rest) []
                  (Nat.le_refl _)) as A.
    destruct (Scan.scanRun (Scan.mode s) (Scan.escapeChars s) (Scan.accept s)
                [] (r :: rest)) as [tx rest2].
    cbn [snd] in A. destruct tx as [|c tx].
    + intros E; inversion E; subst. cbn. rewrite I.
      repeat split; [apply incl_refl | discriminate | discriminate].
    + intros E; inversion E; subst. cbn.
      repeat split; [exact A | discriminate | discriminate].
  - intros E; inversion E; subst. cbn. rewrite I.
    repeat split; [apply incl_refl | discriminate | discriminate].
Qed.

Lemma unread_read_input (s : Scan.scanner) :
  incl (Scan.input (Scan.unread (snd (Scan.read s)))) (Scan.input s).
Proof.
  unfold Scan.read, Scan.unread.
  destruct (Scan.input s) as [|r rest] eqn:I; cbn; rewrite ?I;
    apply incl_refl.
Qed.

(** A substitution that parses is closed: a closing brace is among the
    runes that were still to read when parseFunc started. *)
Lemma parseFunc_needs_brace (fuel : nat) (s : Scan.scanner) (n : Node)
    (s' : Scan.scanner) :
  parseFunc fuel s = Some (n, None, s') -> In "}" (Scan.input s).
Proof.
  intros E.
  exact (proj1 (@parseFunc_closes Scan.scanner Scan.ops Scan.input
           (fun _ s0 => eq_refl (Scan.input s0))
           (fun _ s0 => eq_refl (Scan.input s0))
           (fun _ s0 => eq_refl (Scan.input s0))
           (fun s tok s' E => proj1 (scan_input s tok s' E))
           (fun s s' E => proj1 (proj2 (scan_input s _ s' E)) eq_refl)
           unread_read_input fuel s n s' E)).
Qed.

Lemma parseAny_reads_all (fuel : nat) (s : Scan.scanner) (n : Node)
    (s' : Scan.scanner) :
  parseAny fuel s = Some (n, None, s') ->
  ~ In Scan.eof (Scan.input s) -> Scan.input s' = [].
Proof.
  intros E NZ.
  destruct (@parseAny_end Scan.scanner Scan.ops Scan.input Scan.eof
           (fun _ s0 => eq_refl (Scan.input s0))
           (fun _ s0 => eq_refl (Scan.input s0))
           (fun _ s0 => eq_refl (Scan.input s0))
           (fun s tok s' E => proj1 (scan_input s tok s' E))
           (fun s s' E => proj1 (proj2 (scan_input s _ s' E)) eq_refl)
           (fun s s' E => proj2 (proj2 (scan_input s _ s' E)) eq_refl)
           unread_read_input fuel s n s' E) as [_ [A|A]];
    [exact A | contradiction].
Qed.

Lemma parseFunc_returns (fuel : nat) (s : Scan.scanner) :
  Scan.remaining s < fuel ->
  exists n e s', parseFunc fuel s = Some (n, e, s').
Proof.
  intros L.
  destruct (@parseFunc_total Scan.scanner Scan.ops Scan.remaining
              (fun _ s0 => eq_refl (Scan.remaining s0))
              (fun _ s0 => eq_refl (Scan.remaining s0))
              (fun _ s0 => eq_refl (Scan.remaining s0))
              (fun s tok s' E => proj1 (scan_remaining s tok s' E))
              (fun s tok s' E => proj2 (scan_remaining s tok s' E))
              unread_read_remaining fuel s L) as (n & e & s' & E & _).
  exists n, e, s'. exact E.
Qed.


Lemma isOperatorRune_runes (r : rune) :
  isOperatorRune r = false ->
  rune_eqb r ":" = false /\ rune_eqb r "=" = false
  /\ rune_eqb r "," = false /\ rune_eqb r "^" = false
  /\ rune_eqb r "/" = false /\ rune_eqb r "#" = false
  /\ rune_eqb r "%" = false.
Proof.
  unfold isOperatorRune. intros O.
  repeat (apply orb_false_iff in O; destruct O as [O ?]). auto 10.
Qed.

Lemma afterName_plain (pf : production) (fuel : nat) (name : string)
    (rest tx : list rune) (l : option rune) (m : N) (e : list rune)
    (a : option acceptFunc) :
  plainStop rest = true ->
  exists s',
    afterName pf fuel name (Scan.mkScanner rest tx l m e a)
    = Some (nil_node, Some ErrMissingClosingBrace, s').
Proof.
  intros P. destruct rest as [|r rest]; [eexists; reflexivity|].
  cbn [plainStop] in P.
  apply andb_prop in P. destruct P as [P B].
  apply andb_prop in P. destruct P as [_ O].
  apply negb_true_iff in B. apply negb_true_iff in O.
  destruct (isOperatorRune_runes r O) as (R1 & R2 & R3 & R4 & R5 & R6 & R7).
  unfold afterName.
  change (peek (Scan.mkScanner (r :: rest) tx l m e a)) with r.
  rewrite R1, R2, R3, R4, R5, R6, R7. cbn [orb]. cbv iota.
  change (scan (set_mode scanRbrack
                  (set_accept acceptIdent
                     (Scan.mkScanner (r :: rest) tx l m e a))))
    with (Scan.scan (Scan.mkScanner (r :: rest) tx l scanRbrack e
                       (Some acceptIdent))).
  unfold Scan.scan. cbn [Scan.input Scan.mode].
  destruct (rune_eqb r Scan.eof); [eexists; reflexivity|].
  unfold Scan.opensSubst.
  change (Scan.has scanRbrack scanLbrack) with false.
  change (Scan.has scanRbrack scanRbrack) with true.
  change (Scan.has scanRbrack scanIdent) with false.
  rewrite B. cbn [andb]. eexists; reflexivity.
Qed.

Lemma plainStop_identStop (rest : list rune) :
  plainStop rest = true -> identStop rest = true.
Proof.
  destruct rest as [|r rest]; [reflexivity|]. cbn [plainStop identStop].
  intros P. apply andb_prop in P. destruct P as [P _].
  apply andb_prop in P. destruct P as [P _]. exact P.
Qed.

(** parseFunc in front of an unclosed plain form. *)
Lemma parseFunc_plain_unclosed (fuel : nat) (name : string)
    (rest : list rune) (s : Scan.scanner) :
  identifier name = true -> plainStop rest = true ->
  Scan.input s = (list_ascii_of_string name ++ rest)%list ->
  exists s',
    parseFunc (Datatypes.S fuel) s
    = Some (nil_node, Some ErrMissingClosingBrace, s').
Proof.
  intros I P E. destruct s as [i tx l m e a]. cbn [Scan.input] in E. subst i.
  cbn [parseFunc].
  rewrite (parseFuncBody_named _ _ _ _ _ _ _ _ _ I (plainStop_identStop _ P)).
  apply afterName_plain. exact P.
Qed.

Lemma has_lor_Lbrack (md : N) : Scan.has (N.lor md scanLbrack) scanLbrack = true.
Proof.
  unfold Scan.has. apply negb_true_iff. apply N.eqb_neq.
  rewrite N.land_lor_distr_l. intros Z. apply N.lor_eq_0_iff in Z.
  destruct Z as [_ Z]. discriminate Z.
Qed.

(** parseParam on input that opens a substitution calls parseFunc, whatever
    its predicate and its mode. *)
Lemma parseParam_open (pf : production) (acc : acceptFunc) (md : N)
    (inp tx : list rune) (l : option rune) (m : N) (e : list rune)
    (a : option acceptFunc) :
  parseParam pf acc md (Scan.mkScanner ("$" :: "{" :: inp) tx l m e a)
  = pf (Scan.mkScanner inp ["$"; "{"] l (N.lor md scanLbrack) e (Some acc)).
Proof.
  unfold parseParam.
  change (scan (set_mode (N.lor md scanLbrack)
                  (set_accept acc
                     (Scan.mkScanner ("$" :: "{" :: inp) tx l m e a))))
    with (Scan.scan (Scan.mkScanner ("$" :: "{" :: inp) tx l
                       (N.lor md scanLbrack) e (Some acc))).
  unfold Scan.scan. cbn [Scan.input Scan.mode].
  change (rune_eqb "$" Scan.eof) with false. cbv iota.
  unfold Scan.opensSubst. rewrite has_lor_Lbrack.
  change (rune_eqb "$" "$") with true. change (rune_eqb "{" "{") with true.
  cbn [andb]. cbv iota. reflexivity.
Qed.

Lemma parseParam_plain_unclosed (fuel : nat) (acc : acceptFunc) (md : N)
    (name : string) (rest : list rune) (s : Scan.scanner) :
  identifier name = true -> plainStop rest = true ->
  Scan.input s = ("$" :: "{" :: list_ascii_of_string name ++ rest)%list ->
  exists s',
    parseParam (parseFunc (Datatypes.S fuel)) acc md s
    = Some (nil_node, Some ErrMissingClosingBrace, s').
Proof.
  intros I P E. destruct s as [i tx l m e a]. cbn [Scan.input] in E. subst i.
  rewrite parseParam_open.
  apply (parseFunc_plain_unclosed fuel name rest); auto.
Qed.

Lemma parseAny_open (fuel : nat) (inp tx : list rune) (l : option rune)
    (m : N) (e : list rune) (a : option acceptFunc) :
  parseAny (Datatypes.S fuel) (Scan.mkScanner ("$" :: "{" :: inp) tx l m e a)
  = match parseFunc fuel
            (Scan.mkScanner inp ["$"; "{"] l anyMode dollar
               (Some acceptRune)) with
    | None => None
    | Some (_, Some err, s) => Some (nil_node, Some err, s)
    | Some (left_, None, s) => joinRight left_ (parseAny fuel s)
    end.
Proof. rewrite parseAny_step. reflexivity. Qed.

Lemma fails_open_unclosed (rest : string) :
  neverCloses rest = true -> exists e, fails ("${" ++ rest) e.
Proof.
  intros NC.
  destruct (parseFunc_returns (Datatypes.S (String.length rest))
              (Scan.mkScanner (list_ascii_of_string rest) ["$"; "{"] None
                 anyMode dollar (Some acceptRune))) as (n & e & s' & F).
  { unfold Scan.remaining. cbn [Scan.input].
    rewrite length_list_ascii_of_string. lia. }
  destruct e as [e|].
  - exists e, (Datatypes.S (Datatypes.S (String.length rest))), s'.
    change (Scan.init ("${" ++ rest) Scan.zero)
      with (Scan.mkScanner ("$" :: "{" :: list_ascii_of_string rest) [] None
              0 [] None).
    rewrite parseAny_open, F. reflexivity.
  - apply parseFunc_needs_brace in F. cbn [Scan.input] in F.
    unfold neverCloses in NC. rewrite forallb_forall in NC.
    specialize (NC _ F). discriminate NC.
Qed.

Lemma fails_plain_unclosed (name rest : string) :
  identifier name = true -> plainStop (list_ascii_of_string rest) = true ->
  fails ("${" ++ name ++ rest) ErrMissingClosingBrace.
Proof.
  intros I P.
  destruct (afterName_plain (parseFunc 0) 0 name (list_ascii_of_string rest)
              (list_ascii_of_string name) None scanIdent escapeAll
              (Some acceptIdent) P) as [s' A].
  exists 2, s'.
  rewrite (parseAny_named 0 name rest I (plainStop_identStop _ P)).
  rewrite A. reflexivity.
Qed.

Lemma fails_after_literal (a b : string) (e : error) :
  literal a = true -> fails ("${" ++ b) e -> fails (a ++ "${" ++ b) e.
Proof.
  intros L (fuel & s' & F).
  destruct a as [|c a]; [exists fuel, s'; exact F|].
  exists (Datatypes.S fuel), s'.
  change (Scan.init ((String c a) ++ "${" ++ b) Scan.zero)
    with (Scan.mkScanner (list_ascii_of_string ((String c a) ++ "${" ++ b))
            [] None 0 [] None).
  rewrite parseAny_step.
  change (scan (anyScanner
            (Scan.mkScanner (list_ascii_of_string ((String c a) ++ "${" ++ b))
               [] None 0 [] None)))
    with (Scan.scan
            (Scan.mkScanner (list_ascii_of_string ((String c a) ++ "${" ++ b))
               [] None anyMode dollar (Some acceptRune))).
  rewrite list_ascii_of_string_app.
  change (list_ascii_of_string ("${" ++ b))
    with ("$" :: "{" :: list_ascii_of_string b).
  rewrite scan_literal_until; [|exact L|discriminate].
  cbv iota beta.
  rewrite (parseAny_forgets fuel _ (list_ascii_of_string (String c a)) []
             None anyMode 0 dollar [] (Some acceptRune) None).
  change (Scan.mkScanner ("$" :: "{" :: list_ascii_of_string b) [] None 0 []
            None) with (Scan.init ("${" ++ b) Scan.zero).
  rewrite F. reflexivity.
Qed.

Lemma fails_after_plain (name b : string) (e : error) :
  identifier name = true -> fails b e -> fails ("${" ++ name ++ "}" ++ b) e.
Proof.
  intros I (fuel & s' & F).
  exists (Datatypes.S (Datatypes.S fuel)), s'.
  rewrite (parseAny_named fuel name ("}" ++ b) I eq_refl).
  change (afterName (parseFunc fuel) fuel name
            (Scan.mkScanner (list_ascii_of_string ("}" ++ b))
               (list_ascii_of_string name) None scanIdent escapeAll
               (Some acceptIdent)))
    with (Some (FuncNode name EmptyString [], @None error,
                Scan.mkScanner (list_ascii_of_string b) ["}"] None scanRbrack
                  escapeAll (Some acceptIdent))).
  cbv iota beta.
  rewrite (parseAny_forgets (Datatypes.S fuel) _ ["}"] [] None
             scanRbrack 0 escapeAll [] (Some acceptIdent) None).
  change (Scan.mkScanner (list_ascii_of_string b) [] None 0 [] None)
    with (Scan.init b Scan.zero).
  rewrite (parseAny_extends fuel (Datatypes.S fuel) (Nat.le_succ_diag_r _)
             _ _ F).
  reflexivity.
Qed.

Lemma append_assoc (a b c : string) :
  ((a ++ b) ++ c)%string = (a ++ (b ++ c))%string.
Proof. induction a as [|x a IH]; cbn; [reflexivity | rewrite IH; reflexivity]. Qed.

Lemma fails_after_items (items : list (string * string)) (b : string)
    (e : error) :
  forallb itemOK items = true -> fails b e ->
  fails (render items ++ b) e.
Proof.
  intros OK B. induction items as [|[a name] items IH].
  - exact B.
  - cbn [forallb] in OK. apply andb_prop in OK. destruct OK as [O OK].
    unfold itemOK in O. cbn [fst snd] in O.
    apply andb_prop in O. destruct O as [L I].
    cbn [render].
    assert (((a ++ "${" ++ name ++ "}" ++ render items) ++ b)%string
            = (a ++ "${" ++ name ++ "}" ++ render items ++ b)%string) as ->.
    { rewrite append_assoc. cbn [append]. rewrite append_assoc.
      reflexivity. }
    apply fails_after_literal; [exact L|].
    apply fails_after_plain; [exact I|].
    apply IH. exact OK.
Qed.

Lemma fails_outcome (buf : string) (e : error) :
  fails buf e ->
  forall fuel, String.length buf < fuel ->
    outcome fuel buf = Some (nil_node, Some e).
Proof.
  intros (f0 & s0 & F) fuel L.
  destruct (parseAny_returns fuel (Scan.init buf Scan.zero)) as (n & e1 & s1 & E).
  { unfold Scan.remaining. cbn. rewrite length_list_ascii_of_string. exact L. }
  pose proof (parseAny_extends f0 (Nat.max f0 fuel) (Nat.le_max_l _ _) _ _ F)
    as F'.
  pose proof (parseAny_extends fuel (Nat.max f0 fuel) (Nat.le_max_r _ _) _ _ E)
    as E'.
  rewrite F' in E'. inversion E'; subst.
  unfold outcome, ParseString, Parse.
  change (@init _ Scan.ops buf (@zero _ Scan.ops)) with (Scan.init buf Scan.zero).
  rewrite E. reflexivity.
Qed.

Lemma afterName_default_open (pf : production) (fuel : nat) (outer : string)
    (inp tx : list rune) (l : option rune) (m : N) (e : list rune)
    (a : option acceptFunc) :
  afterName pf (Datatypes.S fuel) outer
    (Scan.mkScanner (":" :: "-" :: "$" :: "{" :: inp) tx l m e a)
  = match parseParam pf acceptNotClosing scanIdent
            (Scan.mkScanner ("$" :: "{" :: inp) [":"; "-"] None scanIdent e
               (Some acceptDefaultFunc)) with
    | None => None
    | Some (_, Some err, s) => Some (nil_node, Some err, s)
    | Some (param, None, s) =>
      defaultLoop pf fuel outer ":-" [param] s
    end.
Proof. reflexivity. Qed.

Lemma fails_nested_unclosed (outer name rest : string) :
  identifier outer = true -> identifier name = true ->
  plainStop (list_ascii_of_string rest) = true ->
  fails ("${" ++ outer ++ ":-${" ++ name ++ rest) ErrMissingClosingBrace.
Proof.
  intros O I P.
  destruct (parseParam_plain_unclosed 0 acceptNotClosing scanIdent name
              (list_ascii_of_string rest)
              (Scan.mkScanner
                 ("$" :: "{" :: list_ascii_of_string name
                      ++ list_ascii_of_string rest)
                 [":"; "-"] None scanIdent escapeAll (Some acceptDefaultFunc))
              I P eq_refl) as [s' A].
  exists 3, s'.
  rewrite (parseAny_named 1 outer (":-${" ++ name ++ rest) O eq_refl).
  change (list_ascii_of_string (":-${" ++ name ++ rest))
    with (":" :: "-" :: "$" :: "{" :: list_ascii_of_string (name ++ rest)).
  rewrite afterName_default_open, list_ascii_of_string_app, A.
  reflexivity.
Qed.

End UnclosedFacts.

(** C2, as amended.  With the scanner [Scan.scanner].
    (1) A substitution that is opened and never closed makes Parse fail:
    when no closing brace is among the runes still to read, parseFunc
    returns an error, and so does Parse when the opening [${] stands at the
    start of the input, after literal text or after closed plain
    substitutions.
    (2) The error is ErrMissingClosingBrace in the plain form: whenever
    parseFunc stands in front of a variable name that is followed by the
    end of the input or by a rune that is no name rune, no operator rune
    and no closing brace; parseParam hands that error on from an argument;
    and Parse returns it for such a form at top level, after literal text
    and closed plain substitutions, and in the word of a default form.
    (3) For every scanner, Parse returns ErrMissingClosingBrace only where
    the closing scan of a plain form failed; the operator productions close
    through consumeRbrack, whose only error is ErrBadSubstitution, which is
    what the unclosed forms [${#NAME] and [${NAME^^] fail with. *)
Theorem unclosed_errors :
  (forall (fuel : nat) (s : Scan.scanner),
      forallb (fun c => negb (rune_eqb c "}")) (Scan.input s) = true ->
      Scan.remaining s < fuel ->
      exists n e s', parseFunc fuel s = Some (n, Some e, s'))
  /\ (forall (items : list (string * string)) (a rest : string),
        forallb itemOK items = true -> literal a = true ->
        neverCloses rest = true ->
        exists e, forall fuel,
            String.length (render items ++ a ++ "${" ++ rest) < fuel ->
            outcome fuel (render items ++ a ++ "${" ++ rest)
            = Some (nil_node, Some e))
  /\ (forall (fuel : nat) (name : string) (rest : list rune)
             (s : Scan.scanner),
        identifier name = true -> plainStop rest = true ->
        Scan.input s = (list_ascii_of_string name ++ rest)%list ->
        exists s',
          parseFunc (Datatypes.S fuel) s
          = Some (nil_node, Some ErrMissingClosingBrace, s'))
  /\ (forall (fuel : nat) (acc : acceptFunc) (md : N) (name : string)
             (rest : list rune) (s : Scan.scanner),
        identifier name = true -> plainStop rest = true ->
        Scan.input s
        = ("$" :: "{" :: list_ascii_of_string name ++ rest)%list ->
        exists s',
          parseParam (parseFunc (Datatypes.S fuel)) acc md s
          = Some (nil_node, Some ErrMissingClosingBrace, s'))
  /\ (forall (items : list (string * string)) (a name rest : string)
             (fuel : nat),
        forallb itemOK items = true -> literal a = true ->
        identifier name = true ->
        plainStop (list_ascii_of_string rest) = true ->
        String.length (render items ++ a ++ "${" ++ name ++ rest) < fuel ->
        outcome fuel (render items ++ a ++ "${" ++ name ++ rest)
        = Some (nil_node, Some ErrMissingClosingBrace))
  /\ (forall (items : list (string * string)) (a outer name rest : string)
             (fuel : nat),
        forallb itemOK items = true -> literal a = true ->
        identifier outer = true -> identifier name = true ->
        plainStop (list_ascii_of_string rest) = true ->
        String.length
          (render items ++ a ++ "${" ++ outer ++ ":-${" ++ name ++ rest)
        < fuel ->
        outcome fuel
          (render items ++ a ++ "${" ++ outer ++ ":-${" ++ name ++ rest)
        = Some (nil_node, Some ErrMissingClosingBrace))
  /\ (forall (S : Type) (ops : Scanner S) (fuel : nat) (buf : string)
             (t : Tree),
        Parse fuel buf = Some (t, Some ErrMissingClosingBrace) ->
        plainUnclosed (scanner t))
  /\ (forall (S : Type) (ops : Scanner S) (s s' : S) (e : error),
        consumeRbrack s = (Some e, s') -> e = ErrBadSubstitution)
  /\ (forall (name : string) (fuel : nat),
        identifier name = true ->
        outcome (4 + fuel) ("${#" ++ name)
        = Some (nil_node, Some ErrBadSubstitution)
        /\ outcome (4 + fuel) ("${" ++ name ++ "^^")
           = Some (nil_node, Some ErrBadSubstitution)).
Proof.
  split.
  { intros fuel s NC L.
    destruct (parseFunc_returns fuel s L) as (n & e & s' & F).
    destruct e as [e|]; [exists n, e, s'; exact F|].
    apply parseFunc_needs_brace in F.
    rewrite forallb_forall in NC. specialize (NC _ F). discriminate NC. }
  split.
  { intros items a rest OK L NC.
    destruct (fails_open_unclosed rest NC) as [e F].
    exists e. apply fails_outcome.
    apply fails_after_items; [exact OK|].
    apply fails_after_literal; assumption. }
  split; [exact parseFunc_plain_unclosed|].
  split; [exact parseParam_plain_unclosed|].
  split.
  { intros items a name rest fuel OK L I P. apply fails_outcome.
    apply fails_after_items; [exact OK|].
    apply fails_after_literal; [exact L|].
    apply fails_plain_unclosed; assumption. }
  split.
  { intros items a outer name rest fuel OK L O I P. apply fails_outcome.
    apply fails_after_items; [exact OK|].
    apply fails_after_literal; [exact L|].
    apply fails_nested_unclosed; assumption. }
  split; [intros S ops; exact Parse_origin|].
  split; [intros S ops; exact consumeRbrack_error|].
  intros name fuel I.
  destruct (unclosed_samples name fuel I) as (_ & A & B & _). auto.
Qed.

(** X4.  A successful Parse ended on a scan, in the mode of parseAny, that
    returned the end-of-input token; the scanner left in the Tree is the
    one that scan returned.  This holds for every scanner.  With the
    scanner [Scan.scanner] and an input without the zero rune, that scanner
    has nothing left to read; on an input with a zero rune Parse can
    succeed with input left unread. *)
Theorem Parse_success_at_EOF :
  (forall (S : Type) (ops : Scanner S) (fuel : nat) (buf : string)
          (t : Tree),
      Parse fuel buf = Some (t, None) ->
      exists s0, scan (anyScanner s0) = (tokenEOF, scanner t))
  /\ (forall (fuel : nat) (buf : string) (t : Tree),
        zeroFree buf = true ->
        ParseString fuel buf = Some (t, None) ->
        Scan.input (scanner t) = [])
  /\ (exists t,
        ParseString 3 (String "a" (String Scan.eof "${VAR")) = Some (t, None)
        /\ Scan.input (scanner t) = list_ascii_of_string "${VAR").
Proof.
  split; [|split].
  - intros S ops fuel buf t. unfold Parse.
    destruct (parseAny fuel (init buf zero)) as [[[n err] s1]|] eqn:E;
      [|discriminate].
    intros Q. inversion Q; subst. cbn [scanner].
    eapply parseAny_ends_at_EOF; exact E.
  - intros fuel buf t Z. unfold ParseString, Parse.
    change (@init _ Scan.ops buf (@zero _ Scan.ops))
      with (Scan.init buf Scan.zero).
    destruct (parseAny fuel (Scan.init buf Scan.zero))
      as [[[n err] s1]|] eqn:E; [|discriminate].
    intros Q. inversion Q; subst. cbn [scanner].
    apply (parseAny_reads_all _ _ _ _ E). cbn [Scan.init Scan.input].
    intros I. unfold zeroFree in Z. rewrite forallb_forall in Z.
    specialize (Z _ I). discriminate Z.
  - eexists. split; vm_compute; reflexivity.
Qed.

(** X8.  With the scanner [Scan.scanner] and for every variable name NAME,
    each operator form parses to one Func node with NAME as its Param, the
    operator as its Name and the words as Text arguments in their order:
    no argument for the plain, length and case forms, one for the trim
    forms, one or two for the substring and replace forms. *)
Theorem operator_forms (name : string) (k : nat) :
  identifier name = true ->
  outcome (4 + k) ("${" ++ name ++ "}")
  = Some (FuncNode name EmptyString [], None)
  /\ outcome (4 + k) ("${#" ++ name ++ "}") = Some (FuncNode name "#" [], None)
  /\ outcome (4 + k) ("${" ++ name ++ "^^}") = Some (FuncNode name "^^" [], None)
  /\ outcome (4 + k) ("${" ++ name ++ ",}") = Some (FuncNode name "," [], None)
  /\ outcome (4 + k) ("${" ++ name ++ "#w}")
     = Some (FuncNode name "#" [TextNode "w"], None)
  /\ outcome (4 + k) ("${" ++ name ++ "%%w}")
     = Some (FuncNode name "%%" [TextNode "w"], None)
  /\ outcome (4 + k) ("${" ++ name ++ ":1}")
     = Some (FuncNode name ":" [TextNode "1"], None)
  /\ outcome (4 + k) ("${" ++ name ++ ":1:2}")
     = Some (FuncNode name ":" [TextNode "1"; TextNode "2"], None)
  /\ outcome (4 + k) ("${" ++ name ++ "/p/r}")
     = Some (FuncNode name "/" [TextNode "p"; TextNode "r"], None)
  /\ outcome (4 + k) ("${" ++ name ++ "//p/}")
     = Some (FuncNode name "//" [TextNode "p"], None)
  /\ outcome (4 + k) ("${" ++ name ++ ":-w}")
     = Some (FuncNode name ":-" [TextNode "w"], None)
  /\ outcome (4 + k) ("${" ++ name ++ "=w}")
     = Some (FuncNode name "=" [TextNode "w"], None)
  /\ outcome (4 + k) ("${" ++ name ++ ":-}")
     = Some (FuncNode name ":-" [], None).
Proof.
  intros I.
  assert (forall (p : option (result (S := Scan.scanner))) node,
             match p with
             | Some (n, None, s2) => n = node /\ Scan.input s2 = []
             | _ => False
             end ->
             match p with
             | None => None
             | Some (_, Some err, s) => Some (nil_node, Some err, s)
             | Some (left_, None, s) =>
               joinRight left_ (parseAny (Datatypes.S (2 + k)) s)
             end
             = Some (node, None,
                     match p with
                     | Some (_, _, s2) =>
                       Scan.with_text []
                         (Scan.with_escapeChars dollar
                            (Scan.with_mode anyMode
                               (Scan.with_accept acceptRune s2)))
                     | None => Scan.zero
                     end)) as Tail.
  { intros [[[n [err|]] s2]|] node A; try contradiction.
    destruct A as [-> In]. destruct s2 as [i t l m e a].
    cbn [Scan.input] in In. subst i. reflexivity. }
  assert (forall rest node,
             identStop (list_ascii_of_string rest) = true ->
             (forall pf,
                 match afterName pf (2 + k) name
                         (Scan.mkScanner (list_ascii_of_string rest)
                            (list_ascii_of_string name) None scanIdent
                            escapeAll (Some acceptIdent)) with
                 | Some (n, None, s2) => n = node /\ Scan.input s2 = []
                 | _ => False
                 end) ->
             outcome (4 + k) ("${" ++ name ++ rest) = Some (node, None))
    as Named.
  { intros rest node St A. unfold outcome, ParseString, Parse.
    change (@init _ Scan.ops ("${" ++ name ++ rest) (@zero _ Scan.ops))
      with (Scan.init ("${" ++ name ++ rest) Scan.zero).
    change (4 + k) with (Datatypes.S (Datatypes.S (2 + k))).
    rewrite (parseAny_named _ _ _ I St).
    rewrite (Tail _ node (A (parseFunc (2 + k)))). reflexivity. }
  split.
  { apply Named; [reflexivity|]. intros pf. vm_compute. split; reflexivity. }
  split.
  { unfold outcome, ParseString, Parse.
    change (@init _ Scan.ops ("${#" ++ name ++ "}") (@zero _ Scan.ops))
      with (Scan.init ("${#" ++ name ++ "}") Scan.zero).
    change (4 + k) with (Datatypes.S (Datatypes.S (2 + k))).
    rewrite parseAny_step.
    change (scan (anyScanner (Scan.init ("${#" ++ name ++ "}") Scan.zero)))
      with (tokenLbrack,
            Scan.mkScanner ("#" :: list_ascii_of_string (name ++ "}"))
              ["$"; "{"] None anyMode dollar (Some acceptRune)).
    cbv iota beta. rewrite list_ascii_of_string_app.
    change (parseFunc (Datatypes.S (2 + k)))
      with (parseFuncBody (parseFunc (2 + k)) (2 + k)).
    rewrite (parseFuncBody_length _ _ name (list_ascii_of_string "}") _ _ _ _ _
               I eq_refl).
    reflexivity. }
  repeat split; apply Named; try reflexivity; intros pf; vm_compute;
    split; reflexivity.
Qed.

(** X10.  Literal text in front of a substitution.  With the scanner
    [Scan.scanner], for non-empty text [a] without dollar sign, backslash
    and zero rune and for every text [b]: Parse on [a] followed by [${]
    and [b] fails with the error of Parse on [${] followed by [b], and
    otherwise returns the List node of the Text node [a] and the tree of
    [${] followed by [b]. *)
Theorem literal_then_substitution (a b : string) (fuel : nat) :
  literal a = true -> nonEmpty a = true ->
  outcome (Datatypes.S fuel) (a ++ "${" ++ b)
  = match outcome fuel ("${" ++ b) with
    | None => None
    | Some (_, Some err) => Some (nil_node, Some err)
    | Some (r, None) => Some (ListNode (TextNode a) r, None)
    end.
Proof.
  intros L NE. unfold outcome, ParseString, Parse.
  change (@init _ Scan.ops (a ++ "${" ++ b) (@zero _ Scan.ops))
    with (Scan.mkScanner (list_ascii_of_string (a ++ "${" ++ b)) [] None 0 []
            None).
  change (@init _ Scan.ops ("${" ++ b) (@zero _ Scan.ops))
    with (Scan.mkScanner ("$" :: "{" :: list_ascii_of_string b) [] None 0 []
            None).
  rewrite parseAny_step.
  change (scan (anyScanner
            (Scan.mkScanner (list_ascii_of_string (a ++ "${" ++ b)) [] None 0
               [] None)))
    with (Scan.scan
            (Scan.mkScanner (list_ascii_of_string (a ++ "${" ++ b)) [] None
               anyMode dollar (Some acceptRune))).
  rewrite list_ascii_of_string_app.
  change (list_ascii_of_string ("${" ++ b))
    with ("$" :: "{" :: list_ascii_of_string b).
  rewrite scan_literal_until; [|exact L|].
  2:{ destruct a; [discriminate NE | discriminate]. }
  cbv iota beta.
  change (string_ (Scan.mkScanner ("$" :: "{" :: list_ascii_of_string b)
                     (list_ascii_of_string a) None anyMode dollar
                     (Some acceptRune)))
    with (string_of_list_ascii (list_ascii_of_string a)).
  rewrite string_of_list_ascii_of_string.
  rewrite (parseAny_forgets fuel _ (list_ascii_of_string a) [] None
             anyMode 0 dollar [] (Some acceptRune) None).
  destruct (parseAny fuel
              (Scan.mkScanner ("$" :: "{" :: list_ascii_of_string b) [] None 0
                 [] None)) as [[[rn [re|]] rs]|] eqn:R; try reflexivity.
  unfold joinRight. rewrite (parseAny_open_not_empty _ _ _ _ _ _ _ _ _ R).
  reflexivity.
Qed.

(** X11.  A plain substitution in front of a template.  With the scanner
    [Scan.scanner], for every variable name NAME and every text [b]: Parse
    on [${NAME}] followed by [b] fails with the error of Parse on [b];
    when [b] parses to the sentinel it returns the Func node of NAME, and
    otherwise the List node of that Func node and the tree of [b]. *)
Theorem plain_substitution_then (name b : string) (fuel : nat) :
  identifier name = true ->
  outcome (2 + fuel) ("${" ++ name ++ "}" ++ b)
  = match outcome (1 + fuel) b with
    | None => None
    | Some (_, Some err) => Some (nil_node, Some err)
    | Some (r, None) =>
      Some (if is_empty r then FuncNode name EmptyString []
            else ListNode (FuncNode name EmptyString []) r, None)
    end.
Proof.
  intros I. unfold outcome, ParseString, Parse.
  change (@init _ Scan.ops ("${" ++ name ++ "}" ++ b) (@zero _ Scan.ops))
    with (Scan.init ("${" ++ name ++ "}" ++ b) Scan.zero).
  change (@init _ Scan.ops b (@zero _ Scan.ops))
    with (Scan.mkScanner (list_ascii_of_string b) [] None 0 [] None).
  change (2 + fuel) with (Datatypes.S (Datatypes.S fuel)).
  change (1 + fuel) with (Datatypes.S fuel).
  rewrite (parseAny_named fuel name ("}" ++ b) I eq_refl).
  change (afterName (parseFunc fuel) fuel name
            (Scan.mkScanner (list_ascii_of_string ("}" ++ b))
               (list_ascii_of_string name) None scanIdent escapeAll
               (Some acceptIdent)))
    with (Some (FuncNode name EmptyString [], @None error,
                Scan.mkScanner (list_ascii_of_string b) ["}"] None scanRbrack
                  escapeAll (Some acceptIdent))).
  cbv iota beta.
  rewrite (parseAny_forgets (Datatypes.S fuel) _ ["}"] [] None
             scanRbrack 0 escapeAll [] (Some acceptIdent) None).
  destruct (parseAny (Datatypes.S fuel)
              (Scan.mkScanner (list_ascii_of_string b) [] None 0 [] None))
    as [[[rn [re|]] rs]|]; try reflexivity.
  unfold joinRight. cbn [Root]. destruct (is_empty rn); reflexivity.
Qed.

(** * The further statements on inputs *)

(** The text of an identifier token of [Scan.scanner] is not empty. *)
Lemma scan_ident_nonempty (s s' : Scan.scanner) :
  Scan.scan s = (tokenIdent, s') -> nonEmpty (Scan.string_ s') = true.
Proof.
  unfold Scan.scan. destruct (Scan.input s) as [|r rest]; [discriminate|].
  destruct (rune_eqb r Scan.eof); [discriminate|].
  destruct (Scan.opensSubst (Scan.mode s) r rest); [discriminate|].
  destruct (Scan.has (Scan.mode s) scanRbrack && rune_eqb r "}");
    [discriminate|].
  destruct (Scan.has (Scan.mode s) scanIdent); [|discriminate].
  destruct (Scan.scanRun _ _ _ _ _) as [[|c tx] rest2]; [discriminate|].
  intros E. inversion E; subst. reflexivity.
Qed.

Lemma Parse_root_nil_iff_error_witness :
  exists t e, ParseString 6 "${VAR" = Some (t, e)
              /\ (Root t = nil_node <-> e <> None).
Proof.
  eexists; eexists. split; [vm_compute; reflexivity|].
  apply (Parse_root_nil_iff_error 6 "${VAR"%string). vm_compute. reflexivity.
Defined.

Lemma Parse_tree_shape_witness :
  exists t, ParseString 6 "a${B:-c${D}}e" = Some (t, None)
            /\ treeShape (fun _ => true) (Root t) = true.
Proof.
  eexists. split; [vm_compute; reflexivity|].
  apply (Parse_tree_shape 6 "a${B:-c${D}}e"%string). vm_compute. reflexivity.
Defined.

Lemma Parse_params_are_identifier_tokens_witness :
  exists t, ParseString 6 "a${B:-c${D}}e" = Some (t, None)
            /\ treeShape nonEmpty (Root t) = true.
Proof.
  eexists. split; [vm_compute; reflexivity|].
  apply (@Parse_params_are_identifier_tokens Scan.scanner Scan.ops nonEmpty
           scan_ident_nonempty 6 "a${B:-c${D}}e"%string).
  vm_compute. reflexivity.
Defined.

Lemma Parse_success_at_EOF_witness :
  exists t, ParseString 6 "a${B}" = Some (t, None)
            /\ (exists s0, scan (anyScanner s0) = (tokenEOF, scanner t))
            /\ Scan.input (scanner t) = [].
Proof.
  eexists. split; [vm_compute; reflexivity|]. split.
  - apply (proj1 Parse_success_at_EOF Scan.scanner Scan.ops 6 "a${B}"%string).
    vm_compute. reflexivity.
  - apply (proj1 (proj2 Parse_success_at_EOF) 6 "a${B}"%string).
    + reflexivity.
    + vm_compute. reflexivity.
Defined.

Lemma parseDefaultFunc_arguments_witness :
  exists s',
    parseDefaultFunc (parseFunc 2) 4 "VAR" (afterVar ":-a${B}c}")
    = Some (FuncNode "VAR" ":-"
              [TextNode "a"; FuncNode "B" EmptyString []; TextNode "c"],
            None, s')
    /\ exists s1 args s2,
      scan (defaultScanner (afterVar ":-a${B}c}")) = (tokenIdent, s1)
      /\ loopArgs (parseFunc 2) s1 args s2
      /\ FuncNode "VAR" ":-"
           [TextNode "a"; FuncNode "B" EmptyString []; TextNode "c"]
         = FuncNode "VAR" (string_ s1) args
      /\ scan (set_mode scanRbrack s2) = (tokenRbrack, s')
      /\ length args < 4.
Proof.
  eexists. split; [vm_compute; reflexivity|].
  apply (proj1 (parseDefaultFunc_arguments (parseFunc 2) "VAR"%string
                  (afterVar ":-a${B}c}")) 4).
  vm_compute. reflexivity.
Defined.

Lemma unclosed_errors_witness :
  outcome 6 "${VAR" = Some (nil_node, Some ErrMissingClosingBrace)
  /\ outcome 7 "x${VAR" = Some (nil_node, Some ErrMissingClosingBrace)
  /\ outcome 10 "${A}${VAR" = Some (nil_node, Some ErrMissingClosingBrace)
  /\ outcome 8 "${VAR w" = Some (nil_node, Some ErrMissingClosingBrace)
  /\ outcome 9 "${A:-${B" = Some (nil_node, Some ErrMissingClosingBrace)
  /\ (exists e, forall fuel,
         8 < fuel -> outcome fuel "${VAR/p/" = Some (nil_node, Some e))
  /\ (exists t, ParseString 6 "${VAR"
                = Some (t, Some ErrMissingClosingBrace)
                /\ plainUnclosed (scanner t))
  /\ outcome 4 "${#VAR" = Some (nil_node, Some ErrBadSubstitution)
  /\ outcome 4 "${VAR^^" = Some (nil_node, Some ErrBadSubstitution).
Proof.
  destruct unclosed_errors as (_ & U & _ & _ & P & D & O & _ & B).
  split; [exact (P [] EmptyString "VAR"%string EmptyString 6 eq_refl eq_refl
                   eq_refl eq_refl (le_n 6))|].
  split; [exact (P [] "x"%string "VAR"%string EmptyString 7 eq_refl eq_refl
                   eq_refl eq_refl (le_n 7))|].
  split; [exact (P [(EmptyString, "A"%string)] EmptyString "VAR"%string
                   EmptyString 10 eq_refl eq_refl eq_refl eq_refl
                   (le_n 10))|].
  split; [exact (P [] EmptyString "VAR"%string " w"%string 8 eq_refl eq_refl
                   eq_refl eq_refl (le_n 8))|].
  split; [exact (D [] EmptyString "A"%string "B"%string EmptyString 9 eq_refl
                   eq_refl eq_refl eq_refl eq_refl
                   (le_n 9))|].
  split; [exact (U [] EmptyString "VAR/p/"%string eq_refl eq_refl eq_refl)|].
  split.
  - eexists. split; [vm_compute; reflexivity|].
    apply (O Scan.scanner Scan.ops 6 "${VAR"%string). vm_compute. reflexivity.
  - exact (B "VAR"%string 0 eq_refl).
Defined.

Lemma Parse_total_witness :
  exists t e, ParseString 6 "a${B}" = Some (t, e).
Proof.
  apply (@Parse_total Scan.scanner Scan.ops Scan.remaining
           (fun _ s0 => eq_refl (Scan.remaining s0))
           (fun _ s0 => eq_refl (Scan.remaining s0))
           (fun _ s0 => eq_refl (Scan.remaining s0))
           (fun s tok s' E => proj1 (scan_remaining s tok s' E))
           (fun s tok s' E => proj2 (scan_remaining s tok s' E))
           unread_read_remaining 6 "a${B}"%string).
  vm_compute. lia.
Defined.

Lemma operator_forms_witness :
  identifier "VAR" = true
  /\ outcome 4 "${VAR}" = Some (FuncNode "VAR" EmptyString [], None)
  /\ outcome 4 "${#VAR}" = Some (FuncNode "VAR" "#" [], None)
  /\ outcome 4 "${VAR^^}" = Some (FuncNode "VAR" "^^" [], None)
  /\ outcome 4 "${VAR,}" = Some (FuncNode "VAR" "," [], None)
  /\ outcome 4 "${VAR#w}" = Some (FuncNode "VAR" "#" [TextNode "w"], None)
  /\ outcome 4 "${VAR%%w}" = Some (FuncNode "VAR" "%%" [TextNode "w"], None)
  /\ outcome 4 "${VAR:1}" = Some (FuncNode "VAR" ":" [TextNode "1"], None)
  /\ outcome 4 "${VAR:1:2}"
     = Some (FuncNode "VAR" ":" [TextNode "1"; TextNode "2"], None)
  /\ outcome 4 "${VAR/p/r}"
     = Some (FuncNode "VAR" "/" [TextNode "p"; TextNode "r"], None)
  /\ outcome 4 "${VAR//p/}" = Some (FuncNode "VAR" "//" [TextNode "p"], None)
  /\ outcome 4 "${VAR:-w}" = Some (FuncNode "VAR" ":-" [TextNode "w"], None)
  /\ outcome 4 "${VAR=w}" = Some (FuncNode "VAR" "=" [TextNode "w"], None)
  /\ outcome 4 "${VAR:-}" = Some (FuncNode "VAR" ":-" [], None).
Proof.
  split; [reflexivity|]. exact (operator_forms "VAR" 0 eq_refl).
Defined.

Lemma Parse_errors_witness :
  exists t e,
    ParseString 4 "${VAR" = Some (t, Some e)
    /\ (e = ErrBadSubstitution \/ e = ErrMissingClosingBrace
        \/ e = ErrParseVariableName \/ e = ErrParseFuncSubstitution).
Proof.
  eexists; eexists. split; [vm_compute; reflexivity|].
  eapply (proj1 Parse_errors 4 "${VAR"%string). vm_compute. reflexivity.
Defined.

Lemma literal_then_substitution_witness :
  literal "hello " = true /\ nonEmpty "hello " = true
  /\ outcome 3 "hello ${VAR}"
     = Some (ListNode (TextNode "hello ") (FuncNode "VAR" EmptyString []), None).
Proof.
  split; [reflexivity|]. split; [reflexivity|].
  exact (literal_then_substitution "hello " "VAR}" 2 eq_refl eq_refl).
Defined.

Lemma plain_substitution_then_witness :
  identifier "VAR" = true
  /\ outcome 4 "${VAR} and ${B}"
     = Some (ListNode (FuncNode "VAR" EmptyString [])
               (ListNode (TextNode " and ") (FuncNode "B" EmptyString [])),
             None).
Proof.
  split; [reflexivity|].
  exact (plain_substitution_then "VAR" " and ${B}" 2 eq_refl).
Defined.
